(** * linkextractor.py: single-domain link crawler with month filtering

    A shallow embedding of [src/linkextractor.py] (class [LinkExtractor])
    and the properties of its URL classifier, month matcher, link
    extractor and traversal loop.

    Conventions of the embedding.
    - A Python [str] is a [string]: a sequence of code points, each one an
      8-bit [ascii], so the model covers text over U+0000..U+00FF.  On
      that range [str.lower], [str.strip] and the regex class [\d] are
      exactly the functions written below.
    - A Python [set] is a [gset string]; the class-level dict
      [TARGET_MONTHS] and the result of [get_month_statistics] are
      association lists, because their key order is observable.
    - [urllib.parse.urljoin], [urlparse(..).netloc] and the HTTP session
      are collaborators of the program: the first two are the fields of
      the class [UrlLib], the third is an oracle answering each request. *)

From Stdlib Require Import QArith Ascii String NArith.
From Stdlib Require Import Init.Byte.
From stdpp Require Import gmap strings list sets relations sorting.

Set Warnings "-clear-no-such-hyp".

Local Open Scope string_scope.
Local Open Scope list_scope.

(** ** Python strings *)

Module Str.

Definition code (c : ascii) : N := N_of_ascii c.

Definition between (lo hi : N) (c : ascii) : bool :=
  ((lo <=? code c) && (code c <=? hi))%N.

(** [str.lower] on one code point of U+0000..U+00FF: A-Z, and the
    Latin-1 capitals U+00C0..U+00DE without the multiplication sign. *)
Definition lower_char (c : ascii) : ascii :=
  if between 65 90 c || (between 192 222 c && negb (code c =? 215)%N)
  then ascii_of_N (code c + 32)
  else c.

Fixpoint lower (s : string) : string :=
  match s with
  | EmptyString => EmptyString
  | String c s' => String (lower_char c) (lower s')
  end.

(** [s.startswith(p)] *)
Fixpoint startswith (s p : string) {struct p} : bool :=
  match p, s with
  | EmptyString, _ => true
  | String _ _, EmptyString => false
  | String a p', String b s' => if decide (a = b) then startswith s' p' else false
  end.

(** [p in s] *)
Fixpoint contains (s p : string) : bool :=
  startswith s p ||
  match s with
  | EmptyString => false
  | String _ s' => contains s' p
  end.

(** [s.endswith(p)] *)
Fixpoint endswith (s p : string) : bool :=
  (if decide (s = p) then true else false) ||
  match s with
  | EmptyString => false
  | String _ s' => endswith s' p
  end.

(** [s.split(sep)[0]] for a one-character separator: the text before
    the first [sep], or all of [s] when there is none. *)
Fixpoint split_head (sep : ascii) (s : string) : string :=
  match s with
  | EmptyString => EmptyString
  | String c s' => if decide (c = sep) then EmptyString else String c (split_head sep s')
  end.

(** The characters [str.isspace] accepts below U+0100. *)
Definition isspace (c : ascii) : bool :=
  between 9 13 c || between 28 32 c || (code c =? 133)%N || (code c =? 160)%N.

Fixpoint lstrip (s : string) : string :=
  match s with
  | EmptyString => EmptyString
  | String c s' => if isspace c then lstrip s' else s
  end.

Fixpoint rstrip (s : string) : string :=
  match s with
  | EmptyString => EmptyString
  | String c s' =>
      match rstrip s' with
      | EmptyString => if isspace c then EmptyString else String c EmptyString
      | r => String c r
      end
  end.

Definition strip (s : string) : string := rstrip (lstrip s).

End Str.

(** ** The regular expressions of [_contains_target_month] *)

Module Re.

Inductive re : Type :=
| Eps
| Chr (c : ascii)
| Digit
| Range (lo hi : ascii)
| Cat (r1 r2 : re)
| Alt (r1 r2 : re)
| Opt (r : re).

(** [r{n}] *)
Fixpoint times (n : nat) (r : re) : re :=
  match n with
  | O => Eps
  | S n' => Cat r (times n' r)
  end.

Definition is_digit (c : ascii) : bool := Str.between 48 57 c.

(** Backtracking matcher with a continuation for the rest of the
    pattern, alternatives tried left to right as [re] does. *)
Fixpoint matches (r : re) (s : string) (k : string -> bool) : bool :=
  match r with
  | Eps => k s
  | Chr c =>
      match s with
      | String a s' => if decide (a = c) then k s' else false
      | EmptyString => false
      end
  | Digit =>
      match s with
      | String a s' => is_digit a && k s'
      | EmptyString => false
      end
  | Range lo hi =>
      match s with
      | String a s' => Str.between (Str.code lo) (Str.code hi) a && k s'
      | EmptyString => false
      end
  | Cat r1 r2 => matches r1 s (fun s' => matches r2 s' k)
  | Alt r1 r2 => matches r1 s k || matches r2 s k
  | Opt r1 => matches r1 s k || k s
  end.

(** [bool(re.search(r, s))]: a match starting at some position. *)
Fixpoint search (r : re) (s : string) : bool :=
  matches r s (fun _ => true) ||
  match s with
  | EmptyString => false
  | String _ s' => search r s'
  end.

End Re.

(** ** Class constants *)

Definition EXCLUDED_EXTENSIONS : list string :=
  [".pdf"; ".jpg"; ".jpeg"; ".png"; ".gif"; ".zip";
   ".doc"; ".docx"; ".xls"; ".xlsx"; ".ppt"; ".pptx";
   ".mp4"; ".avi"; ".mov"; ".mp3"; ".wav"].

(** U+00E9, the e with acute accent of the two accented month names. *)
Definition e_acute : ascii := ascii_of_N 233.

Definition fevrier : string := String "f" (String e_acute "vrier").
Definition decembre : string := String "d" (String e_acute "cembre").

Definition TARGET_MONTHS : list (string * list string) :=
  [("janvier", ["01"; "1"; "janvier"; "january"]);
   (fevrier, ["02"; "2"; fevrier; "february"]);
   ("mars", ["03"; "3"; "mars"; "march"]);
   ("novembre", ["11"; "novembre"; "november"]);
   (decembre, ["12"; decembre; "december"])].

(** ** Month-pattern matcher *)

(** [(0?[1-3]|11|12)] *)
Definition month_code : Re.re :=
  Re.Alt (Re.Cat (Re.Opt (Re.Chr "0")) (Re.Range "1" "3"))
         (Re.Alt (Re.Cat (Re.Chr "1") (Re.Chr "1"))
                 (Re.Cat (Re.Chr "1") (Re.Chr "2"))).

(** [(\d{4})] sep [(0?[1-3]|11|12)] sep *)
Definition date_segment (sep : ascii) : Re.re :=
  Re.Cat (Re.times 4 Re.Digit)
         (Re.Cat (Re.Chr sep) (Re.Cat month_code (Re.Chr sep))).

Definition date_patterns : list Re.re :=
  [Re.Cat (Re.Chr "/") (date_segment "/");
   Re.Cat (Re.Chr "/") (date_segment "-");
   date_segment "/";
   date_segment "-"].

Definition _contains_target_month (url : string) : bool :=
  let url_lower := Str.lower url in
  if existsb (fun pattern => Re.search pattern url) date_patterns then true
  else if existsb (fun month_patterns : string * list string =>
                     existsb (fun pattern => Str.contains url_lower pattern)
                             (snd month_patterns))
                  TARGET_MONTHS then true
  else false.

Definition filter_links_by_months (links : list string) : list string :=
  List.filter _contains_target_month links.

(** [stats[month_name] += 1] *)
Fixpoint stats_incr (month_name : string) (stats : list (string * nat))
  : list (string * nat) :=
  match stats with
  | [] => []
  | (k, v) :: rest =>
      if decide (k = month_name) then (k, S v) :: rest
      else (k, v) :: stats_incr month_name rest
  end.

(** The innermost loop: the first pattern found in the lowercased link
    increments the month and breaks out of this loop only. *)
Fixpoint patterns_loop (link month_name : string) (patterns : list string)
    (stats : list (string * nat)) : list (string * nat) :=
  match patterns with
  | [] => stats
  | pattern :: patterns' =>
      if Str.contains (Str.lower link) pattern then stats_incr month_name stats
      else patterns_loop link month_name patterns' stats
  end.

(** The loop over [TARGET_MONTHS.items()] for one link. *)
Fixpoint months_loop (link : string) (months : list (string * list string))
    (stats : list (string * nat)) : list (string * nat) :=
  match months with
  | [] => stats
  | (month_name, patterns) :: months' =>
      months_loop link months' (patterns_loop link month_name patterns stats)
  end.

Fixpoint links_loop (links : list string) (stats : list (string * nat))
  : list (string * nat) :=
  match links with
  | [] => stats
  | link :: links' => links_loop links' (months_loop link TARGET_MONTHS stats)
  end.

Definition get_month_statistics (filtered_links : list string) : list (string * nat) :=
  links_loop filtered_links (List.map (fun m => (fst m, 0)) TARGET_MONTHS).

(** [stats[month_name]] *)
Fixpoint stats_get (month_name : string) (stats : list (string * nat)) : option nat :=
  match stats with
  | [] => None
  | (k, v) :: rest => if decide (k = month_name) then Some v else stats_get month_name rest
  end.

(** Some token of a month occurs in the lowercased link. *)
Definition month_matches (link : string) (patterns : list string) : bool :=
  existsb (fun pattern => Str.contains (Str.lower link) pattern) patterns.

(** The contribution of one link to a month's count. *)
Definition hit (link : string) (patterns : list string) : nat :=
  if month_matches link patterns then 1 else 0.

(** How many links of a list a month's tokens match. *)
Definition count_matching (patterns : list string) (links : list string) : nat :=
  length (List.filter (fun link => month_matches link patterns) links).

(** ** URL classifier *)

Definition _should_visit_link (url : string) : bool :=
  if existsb (fun ext => Str.endswith (Str.lower url) ext) EXCLUDED_EXTENSIONS then false
  else if Str.contains (Str.split_head "?" url) "#" then false
  else true.

Definition isExcluded (url : string) : bool := negb (_should_visit_link url).

(** The claim's reading of the classifier, from the specification's words:
    the extension test applies to the path component of the URL
    (RFC 3986: what follows the scheme and the authority, up to the first
    [?] or [#]). *)
Module SpecReading.

Definition is_alpha (c : ascii) : bool :=
  Str.between 65 90 c || Str.between 97 122 c.

Definition is_scheme_char (c : ascii) : bool :=
  is_alpha c || Re.is_digit c ||
  (if decide (c = "+"%char) then true else false) ||
  (if decide (c = "-"%char) then true else false) ||
  (if decide (c = "."%char) then true else false).

Fixpoint after_colon (s : string) : option string :=
  match s with
  | EmptyString => None
  | String c s' =>
      if decide (c = ":"%char) then Some s'
      else if is_scheme_char c then after_colon s' else None
  end.

Definition drop_scheme (url : string) : string :=
  match url with
  | String c _ => if is_alpha c then default url (after_colon url) else url
  | EmptyString => url
  end.

Definition is_delim (c : ascii) : bool :=
  (if decide (c = "?"%char) then true else false) ||
  (if decide (c = "#"%char) then true else false).

Fixpoint drop_authority (s : string) : string :=
  match s with
  | EmptyString => EmptyString
  | String c s' =>
      if is_delim c || (if decide (c = "/"%char) then true else false) then s
      else drop_authority s'
  end.

Fixpoint until_delim (s : string) : string :=
  match s with
  | EmptyString => EmptyString
  | String c s' => if is_delim c then EmptyString else String c (until_delim s')
  end.

Definition path_component (url : string) : string :=
  let rest := drop_scheme url in
  let rest :=
    match rest with
    | String "/" (String "/" r) => drop_authority r
    | _ => rest
    end in
  until_delim rest.

Definition isExcluded (url : string) : bool :=
  existsb (fun ext => Str.endswith (Str.lower (path_component url)) ext)
          EXCLUDED_EXTENSIONS
  || Str.contains (Str.split_head "?" url) "#".

End SpecReading.

(** ** Collaborators *)

(** [urllib.parse]: [urljoin(base, href)] and [urlparse(url).netloc]. *)
Class UrlLib := {
  urljoin : string -> string -> string;
  netloc : string -> string
}.

(** A parsed document, as far as [find_all] looks at it: its elements in
    document order, each with its name and its [href] attribute if any. *)
Record Tag := { tag_name : string; tag_href : option string }.

(** What [session.get] followed by [raise_for_status] does: it raises a
    [requests.RequestException], or hands over a page to parse. *)
Inductive response :=
| Raises
| Returns (soup : list Tag).

(** The network: the answer to the [n]-th request of the run, for a URL. *)
Definition World := nat -> string -> response.

Inductive event :=
| LogInfoStart (domain : string)
| LogInfoPage (n : nat) (url : string)
| HttpGet (url : string) (ok : bool)
| Sleep (seconds : Q)
| LogWarning (url : string)
| LogInfoDone (pages links : nat).

(** ** The extractor *)

Record LinkExtractor := {
  base_url : string;
  domain : string;
  delay : Q
}.

Record CrawlState := {
  visited : gset string;
  to_visit : list string;
  all_links : gset string;
  page_count : nat;
  trace : list event
}.

Definition is_get (e : event) : bool :=
  match e with HttpGet _ _ => true | _ => false end.

(** The URLs requested so far, in order. *)
Definition fetched (tr : list event) : list string :=
  omap (fun e => match e with HttpGet u _ => Some u | _ => None end) tr.

(** The URLs whose request returned a page. *)
Definition fetched_ok (tr : list event) : list string :=
  omap (fun e => match e with HttpGet u true => Some u | _ => None end) tr.

(** No request is sent while the previous one has not been followed by a
    [time.sleep]; [pending] says a request was sent since the last sleep. *)
Fixpoint fetches_delayed (pending : bool) (tr : list event) : bool :=
  match tr with
  | [] => true
  | HttpGet _ _ :: tr' => if pending then false else fetches_delayed true tr'
  | Sleep _ :: tr' => fetches_delayed false tr'
  | _ :: tr' => fetches_delayed pending tr'
  end.

Section Extractor.
Context `{UrlLib}.

(** [__init__] *)
Definition LinkExtractor_init (base_url : string) (delay : Q) : LinkExtractor :=
  {| base_url := base_url; domain := netloc base_url; delay := delay |}.

(** [soup.find_all('a', href=True)], each hit read as [link['href']]. *)
Definition find_all_a_href (soup : list Tag) : list string :=
  omap (fun t => if decide (tag_name t = "a") then tag_href t else None) soup.

Definition non_navigational (href : string) : bool :=
  Str.startswith href "javascript:" || Str.startswith href "mailto:"
  || Str.startswith href "tel:".

Fixpoint extract_loop (self : LinkExtractor) (current_url : string)
    (hrefs : list string) (links : gset string) : gset string :=
  match hrefs with
  | [] => links
  | raw :: hrefs' =>
      let href := Str.strip raw in
      if (if decide (href = "") then false else true) && negb (non_navigational href)
      then
        let absolute_url := urljoin current_url href in
        if decide (netloc absolute_url = domain self)
        then extract_loop self current_url hrefs' ({[absolute_url]} ∪ links)
        else extract_loop self current_url hrefs' links
      else extract_loop self current_url hrefs' links
  end.

Definition _extract_links_from_page (self : LinkExtractor) (soup : list Tag)
    (current_url : string) : gset string :=
  extract_loop self current_url (find_all_a_href soup) ∅.

(** The [for link in new_links] loop, [new_links] in iteration order. *)
Fixpoint enqueue (visited : gset string) (new_links : list string)
    (to_visit : list string) : list string :=
  match new_links with
  | [] => to_visit
  | link :: new_links' =>
      if bool_decide (link ∉ visited) && bool_decide (link ∉ to_visit)
         && _should_visit_link link
      then enqueue visited new_links' (to_visit ++ [link])
      else enqueue visited new_links' to_visit
  end.

Definition initial (self : LinkExtractor) : CrawlState :=
  {| visited := ∅; to_visit := [base_url self]; all_links := ∅;
     page_count := 0; trace := [LogInfoStart (domain self)] |}.

(** [if current_url in visited: continue], after the pop. *)
Definition on_visited (rest : list string) (st : CrawlState) : CrawlState :=
  {| visited := visited st; to_visit := rest; all_links := all_links st;
     page_count := page_count st; trace := trace st |}.

(** The [except requests.RequestException] branch. *)
Definition on_failure (current_url : string) (rest : list string)
    (st : CrawlState) : CrawlState :=
  {| visited := visited st; to_visit := rest; all_links := all_links st;
     page_count := page_count st;
     trace := trace st ++ [LogInfoPage (S (page_count st)) current_url;
                           HttpGet current_url false;
                           LogWarning current_url] |}.

(** The body of the [try] when no exception is raised; [order] is the
    order in which the set [new_links] is iterated. *)
Definition on_success (self : LinkExtractor) (current_url : string)
    (rest : list string) (soup : list Tag) (order : list string)
    (st : CrawlState) : CrawlState :=
  let visited' := {[current_url]} ∪ visited st in
  let new_links := _extract_links_from_page self soup current_url in
  {| visited := visited';
     to_visit := enqueue visited' order rest;
     all_links := all_links st ∪ new_links;
     page_count := S (page_count st);
     trace := trace st ++ [LogInfoPage (S (page_count st)) current_url;
                           HttpGet current_url true;
                           Sleep (delay self)] |}.

(** One iteration of [while to_visit], for every answer of the network
    and every iteration order of the set of new links. *)
Inductive step (self : LinkExtractor) : CrawlState -> CrawlState -> Prop :=
| step_visited st current_url rest :
    to_visit st = current_url :: rest ->
    current_url ∈ visited st ->
    step self st (on_visited rest st)
| step_failure st current_url rest :
    to_visit st = current_url :: rest ->
    current_url ∉ visited st ->
    step self st (on_failure current_url rest st)
| step_success st current_url rest soup order :
    to_visit st = current_url :: rest ->
    current_url ∉ visited st ->
    order ≡ₚ elements (_extract_links_from_page self soup current_url) ->
    step self st (on_success self current_url rest soup order st).

Definition reachable (self : LinkExtractor) (st : CrawlState) : Prop :=
  rtc (step self) (initial self) st.

(** The same iteration as a function of the network [w]; a state with
    an empty frontier is left as it is (the loop has ended). *)
Definition loop_body (self : LinkExtractor) (w : World) (st : CrawlState)
  : CrawlState :=
  match to_visit st with
  | [] => st
  | current_url :: rest =>
      if decide (current_url ∈ visited st) then on_visited rest st
      else
        match w (length (fetched (trace st))) current_url with
        | Raises => on_failure current_url rest st
        | Returns soup =>
            on_success self current_url rest soup
              (elements (_extract_links_from_page self soup current_url)) st
        end
  end.

Fixpoint run (n : nat) (self : LinkExtractor) (w : World) (st : CrawlState)
  : CrawlState :=
  match n with
  | O => st
  | S n' => run n' self w (loop_body self w st)
  end.

(** The whole loop; [None] when [fuel] iterations do not empty the
    frontier. *)
Fixpoint crawl (fuel : nat) (self : LinkExtractor) (w : World)
    (st : CrawlState) : option CrawlState :=
  match to_visit st with
  | [] => Some st
  | _ :: _ =>
      match fuel with
      | O => None
      | S fuel' => crawl fuel' self w (loop_body self w st)
      end
  end.

Definition finish (st : CrawlState) : CrawlState :=
  {| visited := visited st; to_visit := to_visit st; all_links := all_links st;
     page_count := page_count st;
     trace := trace st ++ [LogInfoDone (page_count st) (size (all_links st))] |}.

(** The method: [list(all_links)], paired with the events of the run. *)
Definition get_all_domain_links (fuel : nat) (self : LinkExtractor) (w : World)
  : option (list string * list event) :=
  match crawl fuel self w (initial self) with
  | Some st => Some (elements (all_links st), trace (finish st))
  | None => None
  end.

(** The state invariant of the loop. *)
Record crawl_inv (st : CrawlState) : Prop := {
  inv_frontier_nodup : NoDup (to_visit st);
  inv_disjoint : forall u, u ∈ visited st -> u ∉ to_visit st;
  inv_fetched_ok : forall u, u ∈ fetched_ok (trace st) <-> u ∈ visited st;
  inv_fetched_once : NoDup (fetched_ok (trace st));
  inv_page_count : page_count st = length (fetched_ok (trace st))
}.

(** Past the first iteration the frontier holds, and the loop requests,
    only URLs that [_should_visit_link] accepts. *)
Definition frontier_filtered (self : LinkExtractor) (st : CrawlState) : Prop :=
  (to_visit st = [base_url self] /\ fetched (trace st) = [])
  \/ (Forall (fun u => _should_visit_link u = true) (to_visit st)
      /\ Forall (fun u => _should_visit_link u = true) (tail (fetched (trace st)))).

End Extractor.

(** A stand-in for [urllib.parse] on fully qualified [scheme://host/...]
    references, which [urljoin] returns unchanged; used for the concrete
    runs below. *)
Module Absolute.

Fixpoint after_slashes (s : string) : option string :=
  match s with
  | String "/" (String "/" r) => Some r
  | String _ s' => after_slashes s'
  | EmptyString => None
  end.

Fixpoint host_part (s : string) : string :=
  match s with
  | EmptyString => EmptyString
  | String c s' =>
      if SpecReading.is_delim c || (if decide (c = "/"%char) then true else false)
      then EmptyString else String c (host_part s')
  end.

Definition lib : UrlLib :=
  {| urljoin := fun _ href => href;
     netloc := fun url => from_option host_part EmptyString (after_slashes url) |}.

End Absolute.

Module Site.
(** A small site: the home page links to two pages and to a PDF. *)
Definition a (href : string) : Tag := {| tag_name := "a"; tag_href := Some href |}.

Definition home := "https://site.com/".
Definition page_b := "https://site.com/b".
Definition page_c := "https://site.com/c".
Definition asset := "https://site.com/report.pdf".

Definition self : LinkExtractor := @LinkExtractor_init Absolute.lib home (1 # 2).

(** The home page answers; [page_b] and [page_c] are down. *)
Definition world : World :=
  fun _ url =>
    if decide (url = home) then Returns [a page_b; a page_c; a asset; a "mailto:x@site.com"]
    else Raises.

(** The same site with every page up; [page_b] and [page_c] have no link. *)
Definition world_up : World :=
  fun _ url =>
    if decide (url = home) then Returns [a page_b; a page_c; a asset; a "mailto:x@site.com"]
    else Returns [].
End Site.

(** ** The filter's tokens, reduced *)

(** The tokens of [TARGET_MONTHS] that no other token contains: a
    lowercased URL holds some token of the table exactly when it holds
    one of these. *)
Definition minimal_tokens : list string :=
  ["1"; "2"; "3"; "janvier"; "january"; fevrier; "february";
   "mars"; "march"; "novembre"; "november"; decembre; "december"].

(** One of the digits 1, 2, 3 occurs in the string. *)
Definition digit123 (s : string) : bool :=
  Str.contains s "1" || Str.contains s "2" || Str.contains s "3".

(** The number of months whose tokens match a link: what one link adds
    to the sum of the counts. *)
Definition months_hit (link : string) : nat :=
  list_sum (List.map (fun m => hit link (snd m)) TARGET_MONTHS).

(** ** Invariants of the traversal beyond the frontier discipline *)

Section ExtractorInvariants.
Context `{UrlLib}.

(** Where the URLs of a state come from. *)
Record provenance (self : LinkExtractor) (st : CrawlState) : Prop := {
  prov_domain : forall u, u ∈ all_links st -> netloc u = domain self;
  prov_frontier : forall u, u ∈ to_visit st -> u = base_url self \/ u ∈ all_links st;
  prov_visited : forall u, u ∈ visited st -> u = base_url self \/ u ∈ all_links st;
  prov_fetched : forall u, u ∈ fetched (trace st) -> u = base_url self \/ u ∈ all_links st
}.

(** The events of a trace that are sleeps, and those that are warnings. *)
Definition sleeps (tr : list event) : list Q :=
  omap (fun e => match e with Sleep d => Some d | _ => None end) tr.

Definition warnings (tr : list event) : list string :=
  omap (fun e => match e with LogWarning u => Some u | _ => None end) tr.

(** What a crawl over a site that answers each URL always the same way
    has achieved so far: each visited page was returned by the site, its
    links are discovered, and every accepted link is visited, pending,
    or down. *)
Definition explored (self : LinkExtractor) (site : string -> response)
    (st : CrawlState) : Prop :=
  (base_url self ∈ visited st \/ base_url self ∈ to_visit st
   \/ site (base_url self) = Raises)
  /\ forall u, u ∈ visited st ->
       exists soup, site u = Returns soup
         /\ forall v, v ∈ _extract_links_from_page self soup u ->
              v ∈ all_links st
              /\ (_should_visit_link v = true ->
                  v ∈ visited st \/ v ∈ to_visit st \/ site v = Raises).



End ExtractorInvariants.

(** ** HTTP answers *)






(** ** Exceptions that end the method *)

(** [urllib.parse] raises [ValueError] on some references (a host with
    an unbalanced bracket, for one); [UrlLib] gives what [urljoin] and
    [urlparse] return, these fields tell when they raise instead. *)
Record Raising := {
  urljoin_raises : string -> string -> bool;
  urlparse_raises : string -> bool
}.

(** [time.sleep(seconds)] raises [ValueError] for a negative length (a
    delay is a rational here: not a number and the infinities are no
    values of the field). *)
Definition sleep_raises (seconds : Q) : bool := negb (Qle_bool 0 seconds).

(** An iteration of the loop goes on with a new state, or a
    [ValueError] leaves the method; the events up to there stay. *)
Inductive iteration :=
| Continue (st : CrawlState)
| ValueError (tr : list event).

(** How a call of [get_all_domain_links] ends; [Unfinished] when the
    fuel does not suffice to tell. *)
Inductive crawl_result :=
| Returned (links : list string) (tr : list event)
| Raised (tr : list event)
| Unfinished.

Section ExtractorRaising.
Context `{UrlLib} (faults : Raising).

(** [_extract_links_from_page] with the exceptions of [urljoin] and
    [urlparse]: [None] when one is raised, which nothing here catches. *)
Fixpoint extract_loop_exn (self : LinkExtractor) (current_url : string)
    (hrefs : list string) (links : gset string) : option (gset string) :=
  match hrefs with
  | [] => Some links
  | raw :: hrefs' =>
      let href := Str.strip raw in
      if (if decide (href = "") then false else true) && negb (non_navigational href)
      then
        if urljoin_raises faults current_url href then None
        else
          let absolute_url := urljoin current_url href in
          if urlparse_raises faults absolute_url then None
          else if decide (netloc absolute_url = domain self)
          then extract_loop_exn self current_url hrefs' ({[absolute_url]} ∪ links)
          else extract_loop_exn self current_url hrefs' links
      else extract_loop_exn self current_url hrefs' links
  end.

Definition _extract_links_from_page_exn (self : LinkExtractor) (soup : list Tag)
    (current_url : string) : option (gset string) :=
  extract_loop_exn self current_url (find_all_a_href soup) ∅.

(** One iteration of [while to_visit] with the two places where a
    [ValueError] can come from inside the [try], which only catches
    [RequestException]: the extraction and the sleep.  The page line is
    logged and the request made before either. *)
Definition loop_body_exn (self : LinkExtractor) (w : World) (st : CrawlState)
  : iteration :=
  match to_visit st with
  | [] => Continue st
  | current_url :: rest =>
      if decide (current_url ∈ visited st) then Continue (on_visited rest st)
      else
        match w (length (fetched (trace st))) current_url with
        | Raises => Continue (on_failure current_url rest st)
        | Returns soup =>
            let tr := trace st ++ [LogInfoPage (S (page_count st)) current_url;
                                   HttpGet current_url true] in
            match _extract_links_from_page_exn self soup current_url with
            | None => ValueError tr
            | Some new_links =>
                if sleep_raises (delay self) then ValueError tr
                else Continue (on_success self current_url rest soup
                                 (elements new_links) st)
            end
        end
  end.

Fixpoint crawl_exn (fuel : nat) (self : LinkExtractor) (w : World)
    (st : CrawlState) : crawl_result :=
  match to_visit st with
  | [] => Returned (elements (all_links st)) (trace (finish st))
  | _ :: _ =>
      match fuel with
      | O => Unfinished
      | S fuel' =>
          match loop_body_exn self w st with
          | Continue st' => crawl_exn fuel' self w st'
          | ValueError tr => Raised tr
          end
      end
  end.

Definition get_all_domain_links_exn (fuel : nat) (self : LinkExtractor) (w : World)
  : crawl_result :=
  crawl_exn fuel self w (initial self).

End ExtractorRaising.

(** The claim's reading of "host": the authority of the URL without
    user information and port, in lower case, as
    [urlparse(url).hostname] gives it. *)
Module SpecHost.

Fixpoint drop_userinfo (s : string) : string :=
  match s with
  | EmptyString => EmptyString
  | String _ s' => if Str.contains s "@" then drop_userinfo s' else s
  end.

Fixpoint until_char (stop : ascii) (s : string) : string :=
  match s with
  | EmptyString => EmptyString
  | String c s' => if decide (c = stop) then EmptyString else String c (until_char stop s')
  end.

Definition drop_port (s : string) : string :=
  match s with
  | String "[" s' => until_char "]" s'
  | _ => until_char ":" s
  end.

Definition host_of_netloc (authority : string) : string :=
  Str.lower (drop_port (drop_userinfo authority)).

Definition host (url : string) : string :=
  host_of_netloc (@netloc Absolute.lib url).

End SpecHost.

(** A stand-in for the exceptions of [urllib.parse]: a reference whose
    authority has one square bracket without the other is refused. *)
Module Brackets.

Definition unbalanced (url : string) : bool :=
  let authority := @netloc Absolute.lib url in
  xorb (Str.contains authority "[") (Str.contains authority "]").

Definition raising : Raising :=
  {| urljoin_raises := fun _ href => unbalanced href;
     urlparse_raises := unbalanced |}.

Definition none : Raising :=
  {| urljoin_raises := fun _ _ => false; urlparse_raises := fun _ => false |}.

End Brackets.

(** The small site behind a server that answers 200 for the home page
    and 503 for everything else. *)
Module Site503.
End Site503.

(** ** Writing the result *)

(** U+000A *)
Definition newline : ascii := ascii_of_N 10.

(** [os.linesep] where it is a line feed. *)
Definition posix_linesep : string := String newline EmptyString.

(** [sorted(links)]: Python orders [str] by code points, which is
    [String.le]; equal strings are the same string, so the sorted list
    does not depend on the sorting algorithm. *)
Definition sorted (links : list string) : list string := merge_sort String.le links.

(** One line per element, each ended by a newline. *)
Fixpoint unlines (lines : list string) : string :=
  match lines with
  | [] => EmptyString
  | line :: lines' => line +:+ String newline (unlines lines')
  end.



(** [encoding='utf-8'] on the code points below U+0100: one byte below
    U+0080, two bytes from there on. *)
Definition byte_of_N (n : N) : byte := byte_of_ascii (ascii_of_N n).

Definition utf8_char (c : ascii) : list byte :=
  let n := N_of_ascii c in
  if (n <? 128)%N then [byte_of_ascii c]
  else [byte_of_N (192 + n / 64); byte_of_N (128 + n mod 64)].

Fixpoint utf8 (text : string) : list byte :=
  match text with
  | EmptyString => []
  | String c text' => utf8_char c ++ utf8 text'
  end.

(** Decoding, for the byte sequences [utf8] produces. *)
Fixpoint utf8_decode (bytes : list byte) : option string :=
  match bytes with
  | [] => Some EmptyString
  | b :: bytes' =>
      let n := N_of_ascii (ascii_of_byte b) in
      if (n <? 128)%N then String (ascii_of_byte b) <$> utf8_decode bytes'
      else if ((194 <=? n) && (n <=? 195))%N then
        match bytes' with
        | b2 :: bytes'' =>
            let m := N_of_ascii (ascii_of_byte b2) in
            if ((128 <=? m) && (m <? 192))%N
            then String (ascii_of_N ((n - 192) * 64 + (m - 128))) <$> utf8_decode bytes''
            else None
        | [] => None
        end
      else None
  end.

(** Text mode writes each newline of the text as [os.linesep]. *)
Fixpoint translate_newlines (linesep : string) (text : string) : string :=
  match text with
  | EmptyString => EmptyString
  | String c text' =>
      if decide (c = newline) then linesep +:+ translate_newlines linesep text'
      else String c (translate_newlines linesep text')
  end.

(** The bytes that [text] becomes in a file opened as line 228 does. *)
Definition file_bytes (linesep : string) (text : string) : list byte :=
  utf8 (translate_newlines linesep text).

(** The file of the [FileHandler] of lines 17-24: every [logger] call
    appends its formatted record (time, level, message) to it. *)
Definition log_filename : string := "extraction_liens.log".

(** The files: names to the bytes they hold. *)
Definition append_file (name : string) (bytes : list byte)
    (fs : gmap string (list byte)) : gmap string (list byte) :=
  <[name := default [] (fs !! name) ++ bytes]> fs.

Inductive save_event :=
| LogInfoSaved (count : nat) (filename : string)
| LogErrorSave.

(** What the file system does to [save_links_to_file]: nothing;
    [open] raises [IOError]; or, the file opened and so emptied, an
    [IOError] comes out of a write, a flush or the close when [written]
    bytes of the text have reached the file (writes are buffered, so this
    need not be at the end of a line). *)
Inductive io_fault :=
| NoFault
| OpenFails
| WriteFails (written : nat).

(** The [for link in sorted(links): file.write(link + '\n')] loop: the
    text handed to the file object, after [text]. *)
Fixpoint write_all (lines : list string) (text : string) : string :=
  match lines with
  | [] => text
  | link :: lines' => write_all lines' (text +:+ link +:+ String newline EmptyString)
  end.

(** [save_links_to_file] on a platform whose [os.linesep] is [linesep].
    [record] is what the log handler appends for the one record this
    call logs. *)
Definition save_links_to_file (linesep : string) (links : list string)
    (filename : string) (fault : io_fault) (record : list byte)
    (fs : gmap string (list byte)) : gmap string (list byte) * save_event :=
  let text := file_bytes linesep (write_all (sorted links) EmptyString) in
  match fault with
  | NoFault =>
      (append_file log_filename record (<[filename := text]> fs),
       LogInfoSaved (length links) filename)
  | OpenFails =>
      (append_file log_filename record fs, LogErrorSave)
  | WriteFails written =>
      (append_file log_filename record (<[filename := take written text]> fs),
       LogErrorSave)
  end.

(** ** [main] *)

Inductive main_event :=
| MainInfoBegin
| Crawl (e : event)
| MainInfoResults
| MainInfoTotal (n : nat)
| MainInfoFiltered (n : nat)
| Save (e : save_event)
| MainInfoStats
| MainInfoStat (month : string) (count : nat)
| MainInfoExamples
| MainInfoExample (i : nat) (link : string)
| MainWarningNone
| MainErrorCritical.

(** The events that are [logger] calls: all but the request and the
    sleep. *)
Definition is_record (e : main_event) : bool :=
  match e with
  | Crawl (HttpGet _ _) | Crawl (Sleep _) => false
  | _ => true
  end.

Definition n_records (log : list main_event) : nat :=
  length (List.filter is_record log).

(** What the handler appends for the records number [from] to
    [from + count - 1] of the run. *)
Definition log_bytes (records : nat -> list byte) (from count : nat) : list byte :=
  concat (List.map records (seq from count)).

Definition website_url : string := "https://afri-carrieres.com/".
Definition output_filename : string := "liens_filtres.txt".

Section Main.
Context `{UrlLib} (faults : Raising) (linesep : string).

(** [main], for a network [w], a file system behaviour [fault], the
    bytes [records i] of the [i]-th log record and the files [fs] found
    at the start.  [None] when [fuel] iterations do not end the crawl.
    A [ValueError] from the constructor or from the crawl reaches
    [except Exception].  An operator interrupt can come at any
    instruction and is no input of this model. *)
Definition main (fuel : nat) (w : World) (fault : io_fault)
    (records : nat -> list byte) (fs : gmap string (list byte))
  : option (gmap string (list byte) * list main_event) :=
  if urlparse_raises faults website_url
  then Some (append_file log_filename (records 0) fs, [MainErrorCritical])
  else
    let extractor := LinkExtractor_init website_url (1 # 2) in
    match get_all_domain_links_exn faults fuel extractor w with
    | Unfinished => None
    | Raised tr =>
        let log := [MainInfoBegin] ++ List.map Crawl tr ++ [MainErrorCritical] in
        Some (append_file log_filename (log_bytes records 0 (n_records log)) fs, log)
    | Returned all_links tr =>
        let filtered_links := filter_links_by_months all_links in
        let log := [MainInfoBegin] ++ List.map Crawl tr
                   ++ [MainInfoResults; MainInfoTotal (length all_links);
                       MainInfoFiltered (length filtered_links)] in
        match filtered_links with
        | [] =>
            let log' := log ++ [MainWarningNone] in
            Some (append_file log_filename (log_bytes records 0 (n_records log')) fs,
                  log')
        | _ :: _ =>
            let before := n_records log in
            let fs0 := append_file log_filename (log_bytes records 0 before) fs in
            let '(fs1, e) :=
              save_links_to_file linesep filtered_links output_filename fault
                (records before) fs0 in
            let stats := get_month_statistics filtered_links in
            let rest :=
              [MainInfoStats]
              ++ List.map (fun entry => MainInfoStat (fst entry) (snd entry)) stats
              ++ [MainInfoExamples]
              ++ imap (fun i link => MainInfoExample (S i) link)
                   (firstn 10 filtered_links) in
            Some (append_file log_filename
                    (log_bytes records (S before) (n_records rest)) fs1,
                  log ++ [Save e] ++ rest)
        end
    end.

End Main.

(** The site [main] crawls, reduced to a home page with one dated offer
    and one contact page; every page is up. *)
Module Afri.
Definition offer := "https://afri-carrieres.com/2024/03/offre".
Definition contact := "https://afri-carrieres.com/contact".

Definition site : string -> response :=
  fun url =>
    if decide (url = website_url) then Returns [Site.a offer; Site.a contact]
    else Returns [].

Definition world : World := fun _ => site.

(** Each log record as one line feed, to count them in the log file. *)
Definition records : nat -> list byte := fun _ => [byte_of_N 10].
End Afri.

(** * Properties *)

(** ** Strings *)

Section StrFacts.
Import Str.
Local Arguments String.append !_ _ / : simpl nomatch.

Lemma startswith_app (s p : string) :
  startswith s p = true <-> exists rest, s = p +:+ rest.
Proof.
  revert s. induction p as [|a p IH]; intros s; simpl.
  - split; [intros _; by exists s | done].
  - destruct s as [|b s].
    + split; [done | intros [rest Hr]; discriminate].
    + destruct (decide (a = b)) as [->|Hne].
      * rewrite IH. split.
        -- intros [rest ->]. by exists rest.
        -- intros [rest Hr]. exists rest. simpl in Hr. by injection Hr.
      * split; [done | intros [rest Hr]; simpl in Hr; congruence].
Qed.

Lemma endswith_app (s p : string) :
  endswith s p = true <-> exists prefix, s = prefix +:+ p.
Proof.
  induction s as [|c s IH]; simpl.
  - destruct (decide (EmptyString = p)) as [<-|Hne]; simpl.
    + split; [intros _; by exists EmptyString | done].
    + split; [done |]. intros [[|a prefix] Hp]; simpl in Hp; [done | discriminate].
  - destruct (decide (String c s = p)) as [<-|Hne]; simpl.
    + split; [intros _; by exists EmptyString | done].
    + rewrite IH. split.
      * intros [prefix ->]. by exists (String c prefix).
      * intros [[|a prefix] Hp]; simpl in Hp; [done |].
        exists prefix. congruence.
Qed.

Lemma contains_char_split_head (sep c : ascii) (s : string) :
  c <> sep ->
  contains (split_head sep s) (String c EmptyString) = true <->
  exists before after,
    s = before +:+ String c after /\ sep ∉ list_ascii_of_string before.
Proof.
  intros Hc. induction s as [|a s IH]; simpl.
  - split; [done |]. intros ([|??] & after & Hs & _); discriminate.
  - destruct (decide (a = sep)) as [->|Ha]; simpl.
    + split; [done |]. intros ([|b before] & after & Hs & Hnot); simpl in *.
      * congruence.
      * injection Hs as <- _. exfalso. apply Hnot. left.
    + destruct (decide (c = a)) as [->|Hca]; simpl.
      * split; [intros _ | done].
        exists EmptyString, s. split; [done | simpl; apply not_elem_of_nil].
      * rewrite IH. split.
        -- intros (before & after & -> & Hnot).
           exists (String a before), after. split; [done |].
           simpl. rewrite not_elem_of_cons. done.
        -- intros ([|b before] & after & Hs & Hnot); simpl in *.
           ++ congruence.
           ++ injection Hs as <- ->. exists before, after. split; [done |].
              rewrite not_elem_of_cons in Hnot. tauto.
Qed.

End StrFacts.

(** ** Month statistics *)

Lemma patterns_loop_once (link month_name : string) (patterns : list string)
    (stats : list (string * nat)) :
  patterns_loop link month_name patterns stats =
  if month_matches link patterns then stats_incr month_name stats else stats.
Proof.
  unfold month_matches. induction patterns as [|p ps IH]; simpl; [done |].
  destruct (Str.contains _ p); simpl; [done | apply IH].
Qed.

Lemma count_matching_cons (patterns : list string) (link : string) (links : list string) :
  count_matching patterns (link :: links) = hit link patterns + count_matching patterns links.
Proof.
  unfold count_matching, hit. simpl. by destruct (month_matches link patterns).
Qed.

Lemma months_loop_TARGET_MONTHS (link : string) (n1 n2 n3 n4 n5 : nat) :
  months_loop link TARGET_MONTHS
    [("janvier", n1); (fevrier, n2); ("mars", n3); ("novembre", n4); (decembre, n5)] =
  [("janvier", hit link ["01"; "1"; "janvier"; "january"] + n1);
   (fevrier, hit link ["02"; "2"; fevrier; "february"] + n2);
   ("mars", hit link ["03"; "3"; "mars"; "march"] + n3);
   ("novembre", hit link ["11"; "novembre"; "november"] + n4);
   (decembre, hit link ["12"; decembre; "december"] + n5)].
Proof.
  unfold TARGET_MONTHS, months_loop, hit. rewrite !patterns_loop_once.
  repeat match goal with
         | |- context [month_matches link ?ps] => destruct (month_matches link ps)
         end; reflexivity.
Qed.

Lemma links_loop_TARGET_MONTHS (links : list string) (n1 n2 n3 n4 n5 : nat) :
  links_loop links
    [("janvier", n1); (fevrier, n2); ("mars", n3); ("novembre", n4); (decembre, n5)] =
  [("janvier", count_matching ["01"; "1"; "janvier"; "january"] links + n1);
   (fevrier, count_matching ["02"; "2"; fevrier; "february"] links + n2);
   ("mars", count_matching ["03"; "3"; "mars"; "march"] links + n3);
   ("novembre", count_matching ["11"; "novembre"; "november"] links + n4);
   (decembre, count_matching ["12"; decembre; "december"] links + n5)].
Proof.
  revert n1 n2 n3 n4 n5. induction links as [|link links IH]; intros; [done |].
  cbn [links_loop]. rewrite months_loop_TARGET_MONTHS, IH, !count_matching_cons.
  repeat match goal with
         | |- _ :: _ = _ :: _ => f_equal
         | |- (_, _) = (_, _) => f_equal
         end; lia.
Qed.

(** C1 (as amended).  [get_month_statistics] counts a link once for every
    month one of whose tokens occurs in the lowercased link: the [break]
    leaves the loop over a month's tokens, not the loop over the months.
    Each month's count is the number of links its tokens match, and on
    the specification's input the result is janvier 2, fevrier 2, mars 0,
    novembre 0, decembre 1. *)
Theorem get_month_statistics_per_month (links : list string) :
  get_month_statistics links =
    List.map (fun m => (fst m, count_matching (snd m) links)) TARGET_MONTHS
  /\ get_month_statistics ["site.com/2024-01-a"; "site.com/2024-12-b"] =
     [("janvier", 2); (fevrier, 2); ("mars", 0); ("novembre", 0); (decembre, 1)].
Proof.
  split; [| by vm_compute].
  unfold get_month_statistics. cbn [List.map TARGET_MONTHS fst snd].
  rewrite links_loop_TARGET_MONTHS.
  by rewrite !Nat.add_0_r.
Qed.

(** C1, the claim as stated fails: on the specification's own input the
    first link also matches fevrier (token 02 inside 2024), the second
    matches janvier (token 1) and fevrier; the two links are counted five
    times in all. *)
Lemma get_month_statistics_counts_every_month :
  let stats := get_month_statistics ["site.com/2024-01-a"; "site.com/2024-12-b"] in
  stats_get "janvier" stats = Some 2
  /\ stats_get fevrier stats = Some 2
  /\ stats_get decembre stats = Some 1
  /\ list_sum (List.map snd stats) = 5.
Proof. by vm_compute. Qed.

(** ** Month matcher *)

(** C2 (as amended).  [_contains_target_month] is true on all three URLs.
    The July URL matches no date pattern, but the lowercased URL contains
    the fevrier tokens 02 and 2 (inside 2024), so the token test accepts
    it. *)
Theorem _contains_target_month_examples :
  _contains_target_month "https://site.com/2024/03/news" = true
  /\ existsb (fun pattern => Re.search pattern "https://site.com/2024/03/news")
             date_patterns = true
  /\ _contains_target_month "https://site.com/2024/07/news" = true
  /\ existsb (fun pattern => Re.search pattern "https://site.com/2024/07/news")
             date_patterns = false
  /\ month_matches "https://site.com/2024/07/news" ["02"; "2"; fevrier; "february"] = true
  /\ _contains_target_month "https://site.com/blog/novembre-news" = true.
Proof. by vm_compute. Qed.

(** C2, the claim as stated fails on its second URL. *)
Lemma _contains_target_month_july :
  _contains_target_month "https://site.com/2024/07/news" = true.
Proof. by vm_compute. Qed.

(** C8.  [filter_links_by_months] returns the subsequence of the links
    that [_contains_target_month] accepts: a subsequence of the input
    whose elements are all accepted, which contains every subsequence of
    accepted links, and which filtering again leaves unchanged. *)
Theorem filter_links_by_months_subsequence (links : list string) :
  let kept := filter_links_by_months links in
  sublist kept links
  /\ Forall (fun url => _contains_target_month url = true) kept
  /\ (forall l, sublist l links ->
            Forall (fun url => _contains_target_month url = true) l ->
            sublist l kept)
  /\ filter_links_by_months kept = kept.
Proof.
  unfold filter_links_by_months. cbn zeta. repeat split.
  - induction links as [|u links IH]; simpl; [constructor |].
    destruct (_contains_target_month u); by constructor.
  - apply Forall_forall. intros u Hu. apply list_elem_of_In in Hu.
    by apply filter_In in Hu as [_ ?].
  - intros l Hsub. induction Hsub as [|u l1 l2 Hsub IH|u l1 l2 Hsub IH]; intros Hall.
    + constructor.
    + apply Forall_cons in Hall as [Hu Hall]. simpl. rewrite Hu.
      constructor. by apply IH.
    + simpl. destruct (_contains_target_month u); [constructor |]; by apply IH.
  - induction links as [|u links IH]; simpl; [done |].
    destruct (_contains_target_month u) eqn:Hu; simpl; [| done].
    by rewrite Hu, IH.
Qed.

(** ** URL classifier *)

(** C3 (as amended).  [isExcluded] tests the whole URL string, not its
    path component: it is true exactly when the lowercased URL ends with
    one of the excluded extensions, or a [#] occurs before the first [?].
    It is true for [report.PDF] and false for [2024/03/index.html]. *)
Theorem isExcluded_iff (url : string) :
  (isExcluded url = true <->
     (exists ext prefix, ext ∈ EXCLUDED_EXTENSIONS /\ Str.lower url = prefix +:+ ext)
     \/ (exists before after,
           url = before +:+ String "#" after /\ "?"%char ∉ list_ascii_of_string before))
  /\ isExcluded "https://site.com/files/report.PDF" = true
  /\ isExcluded "https://site.com/2024/03/index.html" = false.
Proof.
  split; [| by vm_compute].
  unfold isExcluded, _should_visit_link.
  rewrite <- (contains_char_split_head "?" "#" url) by done.
  destruct (existsb _ EXCLUDED_EXTENSIONS) eqn:Hext.
  - split; [intros _; left | done].
    apply existsb_exists in Hext as (ext & Hin & Hends).
    apply endswith_app in Hends as [prefix Hp].
    exists ext, prefix. by rewrite list_elem_of_In.
  - destruct (Str.contains _ "#") eqn:Hhash; simpl.
    + split; [intros _; by right | done].
    + split; [done |]. intros [(ext & prefix & Hin & Hp) | ?]; [| done].
      assert (existsb (fun ext => Str.endswith (Str.lower url) ext)
                EXCLUDED_EXTENSIONS = true) as Habs; [| congruence].
      apply existsb_exists. exists ext. rewrite <- list_elem_of_In.
      split; [done |]. apply endswith_app. by exists prefix.
Qed.

(** C3, the claim as stated fails: a PDF URL with a query string has a
    path component ending in [.pdf], yet it is not excluded; a page whose
    query string ends in [.pdf] is excluded although its path does not. *)
Lemma isExcluded_ignores_path_component :
  SpecReading.path_component "https://site.com/report.pdf?download=1" = "/report.pdf"
  /\ SpecReading.isExcluded "https://site.com/report.pdf?download=1" = true
  /\ isExcluded "https://site.com/report.pdf?download=1" = false
  /\ SpecReading.isExcluded "https://site.com/view?file=a.pdf" = false
  /\ isExcluded "https://site.com/view?file=a.pdf" = true.
Proof. by vm_compute. Qed.

(** ** Traversal *)

Lemma enqueue_elem (V : gset string) (order q : list string) (u : string) :
  u ∈ enqueue V order q <->
  u ∈ q \/ (u ∈ order /\ (u ∉ V) /\ _should_visit_link u = true).
Proof.
  revert q. induction order as [|link order IH]; intros q; simpl.
  - set_solver.
  - destruct (bool_decide (link ∉ V)) eqn:HV; simpl.
    + apply bool_decide_eq_true in HV.
      destruct (bool_decide (link ∉ q)) eqn:Hq; simpl.
      * destruct (_should_visit_link link) eqn:Hvis; rewrite IH.
        -- set_solver.
        -- split; [set_solver |]. intros [?|([->|?]%elem_of_cons & ? & ?)];
             [tauto | congruence | tauto].
      * apply bool_decide_eq_false in Hq. apply dec_stable in Hq.
        rewrite IH. set_solver.
    + apply bool_decide_eq_false in HV. rewrite IH. set_solver.
Qed.

Lemma enqueue_NoDup (V : gset string) (order q : list string) :
  NoDup q -> NoDup (enqueue V order q).
Proof.
  revert q. induction order as [|link order IH]; intros q Hq; simpl; [done |].
  destruct (bool_decide (link ∉ V)); simpl; [| by apply IH].
  destruct (bool_decide (link ∉ q)) eqn:Hlink; simpl; [| by apply IH].
  destruct (_should_visit_link link); [| by apply IH].
  apply IH. apply bool_decide_eq_true in Hlink.
  apply NoDup_app. split; [done |]. split; [set_solver | apply NoDup_singleton].
Qed.

Lemma fetched_app (tr1 tr2 : list event) :
  fetched (tr1 ++ tr2) = fetched tr1 ++ fetched tr2.
Proof. apply omap_app. Qed.

Lemma fetched_ok_app (tr1 tr2 : list event) :
  fetched_ok (tr1 ++ tr2) = fetched_ok tr1 ++ fetched_ok tr2.
Proof. apply omap_app. Qed.

Section Traversal.
Context `{UrlLib}.
Implicit Types (self : LinkExtractor) (st : CrawlState) (w : World).

Lemma crawl_inv_initial self : crawl_inv (initial self).
Proof.
  split; simpl.
  - apply NoDup_singleton.
  - set_solver.
  - set_solver.
  - constructor.
  - done.
Qed.

Lemma crawl_inv_step self st st' :
  step self st st' -> crawl_inv st -> crawl_inv st'.
Proof.
  intros Hstep [Hnd Hdis Hok Honce Hcount].
  destruct Hstep as [st cur rest Hq Hin | st cur rest Hq Hnin
                    | st cur rest soup order Hq Hnin Hperm];
    rewrite Hq in Hnd, Hdis; apply NoDup_cons in Hnd as [Hcur Hrest].
  - split; simpl; [done | set_solver | done | done | done].
  - split; simpl; rewrite ?fetched_ok_app; simpl; rewrite ?app_nil_r;
      [done | set_solver | done | done | done].
  - split; simpl; rewrite ?fetched_ok_app; simpl.
    + by apply enqueue_NoDup.
    + intros u Hu. rewrite enqueue_elem. set_solver.
    + intros u. rewrite elem_of_app, Hok. set_solver.
    + apply NoDup_app. split; [done |]. split; [| apply NoDup_singleton].
      intros u Hu%Hok. set_solver.
    + rewrite length_app. simpl. lia.
Qed.

Lemma reachable_inv self st : reachable self st -> crawl_inv st.
Proof.
  apply (rtc_ind_r crawl_inv (initial self)).
  - apply crawl_inv_initial.
  - intros y z _ Hstep Hy. by eapply crawl_inv_step.
Qed.

(** The function [loop_body] is one [step], whatever the network. *)
Lemma loop_body_step self w st :
  to_visit st <> [] -> step self st (loop_body self w st).
Proof.
  intros Hq. unfold loop_body. destruct (to_visit st) as [|cur rest] eqn:Hto; [done |].
  destruct (decide (cur ∈ visited st)).
  - by eapply step_visited.
  - destruct (w _ cur).
    + by eapply step_failure.
    + by eapply step_success.
Qed.

Lemma loop_body_rtc self w st : rtc (step self) st (loop_body self w st).
Proof.
  destruct (to_visit st) as [|cur rest] eqn:Hq.
  - unfold loop_body. by rewrite Hq.
  - apply rtc_once, loop_body_step. by rewrite Hq.
Qed.

Lemma run_rtc self w n st : rtc (step self) st (run n self w st).
Proof.
  revert st. induction n as [|n IH]; intros st; simpl; [done |].
  etrans; [apply loop_body_rtc | apply IH].
Qed.

Lemma run_reachable self w n : reachable self (run n self w (initial self)).
Proof. apply run_rtc. Qed.

Lemma crawl_rtc self w fuel st st' :
  crawl fuel self w st = Some st' -> rtc (step self) st st'.
Proof.
  revert st. induction fuel as [|fuel IH]; intros st; simpl;
    destruct (to_visit st) eqn:Hq; intros Hc; simplify_eq; try done.
  etrans; [apply loop_body_rtc | by apply IH].
Qed.


Lemma extract_loop_elem self current_url (hrefs : list string) (links : gset string) u :
  u ∈ extract_loop self current_url hrefs links <->
  u ∈ links \/
  exists raw, raw ∈ hrefs /\ Str.strip raw <> "" /\
    non_navigational (Str.strip raw) = false /\
    u = urljoin current_url (Str.strip raw) /\ netloc u = domain self.
Proof.
  revert links. induction hrefs as [|raw hrefs IH]; intros links; simpl.
  - split; [by left |]. intros [?|(raw & Hin & _)]; [done |]. by apply elem_of_nil in Hin.
  - destruct (decide (Str.strip raw = "")) as [Hempty|Hfull]; simpl.
    { rewrite IH. split; intros [?|(r & Hin & Hr)]; try by left.
      - right. exists r. split; [by right | done].
      - apply elem_of_cons in Hin as [->|Hin]; [by destruct Hr | right; by exists r]. }
    destruct (non_navigational (Str.strip raw)) eqn:Hnav; simpl.
    { rewrite IH. split; intros [?|(r & Hin & Hr)]; try by left.
      - right. exists r. split; [by right | done].
      - apply elem_of_cons in Hin as [->|Hin]; [| right; by exists r].
        destruct Hr as (_ & Hr & _). congruence. }
    destruct (decide (netloc (urljoin current_url (Str.strip raw)) = domain self))
      as [Hdom|Hdom]; rewrite IH.
    + rewrite elem_of_union, elem_of_singleton. split.
      * intros [[->|?]|(r & Hin & Hr)]; [| by left |].
        -- right. exists raw. split; [by left | done].
        -- right. exists r. split; [by right | done].
      * intros [?|(r & Hin & Hr)]; [by left; right |].
        apply elem_of_cons in Hin as [->|Hin]; [| right; by exists r].
        left; left. by destruct Hr as (_ & _ & -> & _).
    + split; intros [?|(r & Hin & Hr)]; try by left.
      * right. exists r. split; [by right | done].
      * apply elem_of_cons in Hin as [->|Hin]; [| right; by exists r].
        destruct Hr as (_ & _ & -> & Hr). done.
Qed.

Lemma find_all_a_href_elem (soup : list Tag) (raw : string) :
  raw ∈ find_all_a_href soup <->
  exists tag, tag ∈ soup /\ tag_name tag = "a" /\ tag_href tag = Some raw.
Proof.
  unfold find_all_a_href. rewrite list_elem_of_omap.
  split; intros (tag & Hin & Htag); exists tag; (split; [done |]).
  - by destruct (decide (tag_name tag = "a")).
  - destruct Htag as [Hname Hhref]. by rewrite decide_True.
Qed.

(** C5.  In every state the loop can reach, no visited URL is in the
    frontier, the frontier holds no URL twice, and the URLs fetched with
    success are exactly the visited ones, each fetched once. *)
Theorem traversal_invariant self st :
  reachable self st ->
  (forall u, u ∈ visited st -> u ∉ to_visit st)
  /\ NoDup (to_visit st)
  /\ NoDup (fetched_ok (trace st))
  /\ (forall u, u ∈ fetched_ok (trace st) <-> u ∈ visited st).
Proof. intros [? ? ? ? ?]%reachable_inv. done. Qed.


Lemma tail_app_visitable (P : string -> Prop) (l : list string) (x : string) :
  Forall P (tail l) -> (l <> [] -> P x) -> Forall P (tail (l ++ [x])).
Proof.
  destruct l as [|y l]; simpl; [constructor |].
  intros Hl Hx. apply Forall_app. split; [done |]. constructor; [by apply Hx | constructor].
Qed.

Lemma frontier_filtered_step self st st' :
  step self st st' -> frontier_filtered self st -> frontier_filtered self st'.
Proof.
  intros Hstep Hinv. right.
  assert (forall cur rest, to_visit st = cur :: rest ->
            Forall (fun u => _should_visit_link u = true) rest
            /\ Forall (fun u => _should_visit_link u = true)
                 (tail (fetched (trace st) ++ [cur]))) as Hpop.
  { intros cur rest Hq. destruct Hinv as [[Hbase Hnone]|[Hq' Hf]].
    - rewrite Hbase in Hq. injection Hq as <- <-. rewrite Hnone. by split; constructor.
    - rewrite Hq in Hq'. apply Forall_cons in Hq' as [Hcur Hrest].
      split; [done |]. by apply tail_app_visitable. }
  destruct Hstep as [st cur rest Hq Hin | st cur rest Hq Hnin
                    | st cur rest soup order Hq Hnin Hperm];
    destruct (Hpop _ _ Hq) as [Hrest Hf]; simpl.
  - split; [done |]. destruct Hinv as [[_ ->]|[_ ?]]; [constructor | done].
  - rewrite fetched_app. by simpl.
  - rewrite fetched_app. simpl. split; [| done].
    apply Forall_forall. intros u [Hu|(_ & _ & Hu)]%enqueue_elem; [| done].
    by eapply Forall_forall in Hrest.
Qed.

Lemma reachable_frontier_filtered self st :
  reachable self st -> frontier_filtered self st.
Proof.
  apply (rtc_ind_r (frontier_filtered self) (initial self)).
  - by left.
  - intros y z _ Hstep Hy. by eapply frontier_filtered_step.
Qed.

(** With every request but the first failing, the loop empties the
    frontier and leaves the discovered set as it is. *)
Lemma crawl_all_down self w st :
  (forall n url, 1 <= n -> w n url = Raises) ->
  1 <= length (fetched (trace st)) ->
  exists st', crawl (length (to_visit st)) self w st = Some st'
              /\ all_links st' = all_links st.
Proof.
  intros Hdown. remember (length (to_visit st)) as k eqn:Hk.
  revert st Hk. induction k as [|k IH]; intros st Hk Hlen.
  - destruct (to_visit st) eqn:Hq; [| done]. exists st. simpl. by rewrite Hq.
  - destruct (to_visit st) as [|cur rest] eqn:Hq; [done |].
    simpl in Hk. injection Hk as Hk. simpl. rewrite Hq.
    unfold loop_body. rewrite Hq. destruct (decide (cur ∈ visited st)).
    + destruct (IH (on_visited rest st)) as (st' & Hc & Ha); [done | done |].
      by exists st'.
    + rewrite Hdown by done.
      destruct (IH (on_failure cur rest st)) as (st' & Hc & Ha); [done | |].
      { simpl. rewrite fetched_app, length_app. lia. }
      by exists st'.
Qed.

(** C6.  A URL that [_should_visit_link] rejects is never appended to the
    frontier by an iteration of the loop, and every request after the
    first one of a run is for a URL that [_should_visit_link] accepts.
    It is still merged into [all_links]: when the page at the base URL
    links to it, there is a run that returns it. *)
Theorem excluded_link_discovered_not_queued self (u : string) :
  _should_visit_link u = false ->
  (forall st st', step self st st' -> u ∈ to_visit st' -> u ∈ to_visit st)
  /\ (forall st, reachable self st -> u ∉ tail (fetched (trace st)))
  /\ (forall soup,
        u ∈ _extract_links_from_page self soup (base_url self) ->
        exists w fuel result tr,
          get_all_domain_links fuel self w = Some (result, tr)
          /\ u ∈ result /\ u ∉ tail (fetched tr)).
Proof.
  intros Hu. split; [| split].
  - intros st st' Hstep Hin.
    destruct Hstep as [st cur rest Hq _ | st cur rest Hq _
                      | st cur rest soup order Hq _ _]; simpl in Hin; rewrite Hq.
    + by right.
    + by right.
    + apply enqueue_elem in Hin as [?|(_ & _ & ?)]; [by right | congruence].
  - intros st [[_ ->]|[_ Hf]]%reachable_frontier_filtered; [apply not_elem_of_nil |].
    intros Hin. eapply Forall_forall in Hf; [| done]. simpl in Hf. congruence.
  - intros soup Hin.
    set (w := fun (n : nat) (_ : string) =>
                match n with O => Returns soup | S _ => Raises end).
    set (st1 := loop_body self w (initial self)).
    assert (all_links st1 = ∅ ∪ _extract_links_from_page self soup (base_url self)
            /\ 1 <= length (fetched (trace st1))) as [Hall Hlen].
    { unfold st1, loop_body. simpl. rewrite decide_False by apply not_elem_of_empty.
      simpl. split; [done | lia]. }
    destruct (crawl_all_down self w st1) as (st' & Hcrawl & Hsame); [| done |].
    { intros [|n] url Hn; [lia | done]. }
    assert (crawl (S (length (to_visit st1))) self w (initial self) = Some st') as Hrun.
    { done. }
    exists w, (S (length (to_visit st1))), (elements (all_links st')), (trace (finish st')).
    unfold get_all_domain_links. rewrite Hrun. split; [done |]. split.
    + apply elem_of_elements. rewrite Hsame, Hall. set_solver.
    + simpl. rewrite fetched_app. simpl. rewrite app_nil_r.
      apply crawl_rtc in Hrun.
      destruct (reachable_frontier_filtered self st' Hrun) as [[_ ->]|[_ Hf]];
        [apply not_elem_of_nil |].
      intros Hin'. eapply Forall_forall in Hf; [| done]. simpl in Hf. congruence.
Qed.


Lemma loop_body_trace self w st : exists tr, trace (loop_body self w st) = trace st ++ tr.
Proof.
  unfold loop_body. destruct (to_visit st) as [|cur rest]; [exists []; by rewrite app_nil_r |].
  destruct (decide (cur ∈ visited st)); [exists []; simpl; by rewrite app_nil_r |].
  destruct (w _ cur); simpl; eauto.
Qed.

Lemma run_trace self w n st : exists tr, trace (run n self w st) = trace st ++ tr.
Proof.
  revert st. induction n as [|n IH]; intros st; simpl.
  - exists []. by rewrite app_nil_r.
  - destruct (IH (loop_body self w st)) as [tr2 ->].
    destruct (loop_body_trace self w st) as [tr1 ->].
    exists (tr1 ++ tr2). by rewrite app_assoc.
Qed.

End Traversal.

(** ** Concrete runs *)

(** C4.  The run on the small site: the home page is fetched and followed
    by a sleep, the request for the next page fails, and the request for
    the page after it is sent with no sleep in between. *)
Theorem delay_skipped_after_failed_fetch :
  snd <$> @get_all_domain_links Absolute.lib 10 Site.self Site.world =
    Some [LogInfoStart "site.com";
          LogInfoPage 1 Site.home; HttpGet Site.home true; Sleep (1 # 2);
          LogInfoPage 2 Site.page_c; HttpGet Site.page_c false; LogWarning Site.page_c;
          LogInfoPage 2 Site.page_b; HttpGet Site.page_b false; LogWarning Site.page_b;
          LogInfoDone 1 3]
  /\ fetches_delayed false
       [LogInfoStart "site.com";
        LogInfoPage 1 Site.home; HttpGet Site.home true; Sleep (1 # 2);
        LogInfoPage 2 Site.page_c; HttpGet Site.page_c false; LogWarning Site.page_c;
        LogInfoPage 2 Site.page_b; HttpGet Site.page_b false; LogWarning Site.page_b;
        LogInfoDone 1 3] = false.
Proof. by vm_compute. Qed.

(** When every request succeeds, each one is followed by its sleep. *)
Example delay_observed_when_all_succeed :
  fetches_delayed false
    (from_option snd [] (@get_all_domain_links Absolute.lib 10 Site.self Site.world_up)) = true
  /\ fetched (from_option snd [] (@get_all_domain_links Absolute.lib 10 Site.self Site.world_up))
     = [Site.home; Site.page_c; Site.page_b].
Proof. by vm_compute. Qed.

(** The invariant of C5 in the state reached after two iterations on the
    small site. *)
Lemma traversal_invariant_witness :
  let st := @run Absolute.lib 2 Site.self Site.world (@initial Site.self) in
  (forall u, u ∈ visited st -> u ∉ to_visit st)
  /\ NoDup (to_visit st)
  /\ NoDup (fetched_ok (trace st))
  /\ (forall u, u ∈ fetched_ok (trace st) <-> u ∈ visited st).
Proof.
  apply (@traversal_invariant Absolute.lib Site.self).
  apply run_reachable.
Defined.

(** C6 on the small site: the PDF linked from the home page is rejected
    by [_should_visit_link] and returned by a run. *)
Lemma excluded_link_discovered_not_queued_witness :
  _should_visit_link Site.asset = false
  /\ exists w fuel result tr,
       @get_all_domain_links Absolute.lib fuel Site.self w = Some (result, tr)
       /\ Site.asset ∈ result /\ Site.asset ∉ tail (fetched tr).
Proof.
  split; [by vm_compute |].
  refine (proj2 (proj2 (@excluded_link_discovered_not_queued Absolute.lib Site.self
                          Site.asset _)) [Site.a Site.asset] _).
  - by vm_compute.
  - apply (bool_decide_unpack _). by vm_compute.
Defined.

(** ** The month filter is its token test *)

Section FilterFacts.
Import Str.

Lemma contains_cons (c : ascii) (s p : string) :
  contains s p = true -> contains (String c s) p = true.
Proof. intros Hs. simpl. rewrite Hs. apply orb_true_r. Qed.

Lemma contains_startswith (s p : string) :
  startswith s p = true -> contains s p = true.
Proof. intros Hs. destruct s; simpl; rewrite Hs; done. Qed.

Lemma startswith_nil (s : string) : startswith s "" = true.
Proof. by destruct s. Qed.

(** A string that contains [c p] contains [p]. *)
Lemma contains_drop_first (c : ascii) (s p : string) :
  contains s (String c p) = true -> contains s p = true.
Proof.
  induction s as [|a s IH]; simpl; [done |].
  destruct (decide (c = a)) as [->|Hne].
  - intros [Hst|Hc]%orb_true_iff.
    + apply orb_true_iff. right. by apply contains_startswith.
    + apply orb_true_iff. right. by apply IH.
  - simpl. intros Hc. apply orb_true_iff. right. by apply IH.
Qed.

(** A string that contains [p c] contains [p]. *)
Lemma startswith_drop_last (s p q : string) :
  startswith s (p +:+ q) = true -> startswith s p = true.
Proof.
  revert s. induction p as [|a p IH]; intros s; simpl; [done |].
  destruct s as [|b s]; [done |]. destruct (decide (a = b)); [apply IH | done].
Qed.

Lemma contains_drop_last (s p q : string) :
  contains s (p +:+ q) = true -> contains s p = true.
Proof.
  induction s as [|a s IH]; simpl.
  - rewrite !orb_false_r. apply startswith_drop_last.
  - intros [Hst|Hc]%orb_true_iff; apply orb_true_iff.
    + left. by eapply startswith_drop_last.
    + right. by apply IH.
Qed.

Lemma lower_char_digit (c d : ascii) :
  Re.is_digit d = true -> d = lower_char c <-> d = c.
Proof.
  intros Hd.
  destruct c as [[] [] [] [] [] [] [] []]; vm_compute lower_char;
    (split; intros ->; first [reflexivity | by vm_compute in Hd]).
Qed.

Lemma contains_digit_lower (d : ascii) (s : string) :
  Re.is_digit d = true ->
  contains (lower s) (String d "") = contains s (String d "").
Proof.
  intros Hd. induction s as [|c s IH]; [done |].
  cbn [lower contains startswith]. rewrite IH. f_equal.
  destruct (decide (d = lower_char c)) as [Hl|Hl], (decide (d = c)) as [Hc|Hc];
    try done; apply (lower_char_digit c d Hd) in Hl || apply (lower_char_digit c d Hd) in Hc;
    done.
Qed.

Lemma digit123_lower (s : string) : digit123 (lower s) = digit123 s.
Proof. unfold digit123. by rewrite !contains_digit_lower. Qed.

Lemma digit123_cons (c : ascii) (s : string) :
  digit123 s = true -> digit123 (String c s) = true.
Proof.
  unfold digit123. rewrite !orb_true_iff.
  intros [[?|?]|?]; eauto using contains_cons.
Qed.

Lemma range_1_3 (a : ascii) :
  between (code "1") (code "3") a = true -> digit123 (String a "") = true.
Proof. destruct a as [[] [] [] [] [] [] [] []]; by vm_compute. Qed.

Lemma contains_head_char (a d : ascii) (s : string) :
  contains (String a "") (String d "") = true ->
  contains (String a s) (String d "") = true.
Proof.
  cbn [contains startswith]. by destruct (decide (d = a)).
Qed.

Lemma digit123_head (a : ascii) (s : string) :
  digit123 (String a "") = true -> digit123 (String a s) = true.
Proof.
  unfold digit123. rewrite !orb_true_iff.
  intros [[?|?]|?]; eauto using contains_head_char.
Qed.

Lemma month_code_digit123 (s : string) (k : string -> bool) :
  Re.matches month_code s k = true -> digit123 s = true.
Proof.
  unfold month_code. cbn [Re.matches].
  destruct s as [|a s]; [done |].
  rewrite !orb_true_iff. intros [[H0|Hr]|[H1|H1]].
  - destruct (decide (a = "0"%char)) as [->|]; [| done].
    destruct s as [|b s]; [done |]. apply andb_true_iff in H0 as [Hb _].
    by apply digit123_cons, digit123_head, range_1_3.
  - apply andb_true_iff in Hr as [Hr _]. by apply digit123_head, range_1_3.
  - destruct (decide (a = "1"%char)) as [->|]; [| done]. by apply digit123_head.
  - destruct (decide (a = "1"%char)) as [->|]; [| done]. by apply digit123_head.
Qed.

Lemma date_segment_digit123 (sep : ascii) (s : string) (k : string -> bool) :
  Re.matches (date_segment sep) s k = true -> digit123 s = true.
Proof.
  unfold date_segment. cbn [Re.matches Re.times].
  destruct s as [|c1 [|c2 [|c3 [|c4 [|c5 s]]]]]; cbn [Re.matches];
    rewrite ?andb_false_r; try done.
  intros (_ & (_ & (_ & (_ & H5)%andb_true_iff)%andb_true_iff)%andb_true_iff)%andb_true_iff.
  destruct (decide (c5 = sep)); [| done].
  do 5 apply digit123_cons. by eapply month_code_digit123.
Qed.

Lemma search_digit123 (r : Re.re) :
  (forall s, Re.matches r s (fun _ => true) = true -> digit123 s = true) ->
  forall s, Re.search r s = true -> digit123 s = true.
Proof.
  intros Hr s. induction s as [|c s IH]; simpl.
  - rewrite orb_false_r. apply Hr.
  - intros [Hm|Hs]%orb_true_iff; [by apply Hr | by apply digit123_cons, IH].
Qed.

(** A URL that matches one of the four date patterns holds a digit 1, 2
    or 3, so the token test accepts it as well. *)
Lemma date_patterns_digit123 (url : string) :
  existsb (fun pattern => Re.search pattern url) date_patterns = true ->
  digit123 url = true.
Proof.
  unfold date_patterns. cbn [existsb]. rewrite !orb_true_iff.
  intros [H1|[H2|[H3|[H4|?]]]]; [| | | | done];
    (eapply search_digit123; [| done]); intros s; cbn [Re.matches].
  - destruct s as [|c s]; [done |]. destruct (decide (c = "/"%char)); [| done].
    intros Hm. by eapply digit123_cons, date_segment_digit123.
  - destruct s as [|c s]; [done |]. destruct (decide (c = "/"%char)); [| done].
    intros Hm. by eapply digit123_cons, date_segment_digit123.
  - apply date_segment_digit123.
  - apply date_segment_digit123.
Qed.

Lemma target_tokens_minimal (s : string) :
  existsb (fun month_patterns : string * list string =>
             existsb (fun pattern => contains s pattern) (snd month_patterns))
          TARGET_MONTHS =
  existsb (fun token => contains s token) minimal_tokens.
Proof.
  unfold TARGET_MONTHS, minimal_tokens. cbn [existsb snd].
  pose proof (contains_drop_first "0" s "1") as H01.
  pose proof (contains_drop_first "0" s "2") as H02.
  pose proof (contains_drop_first "0" s "3") as H03.
  pose proof (contains_drop_last s "1" "1") as H11.
  pose proof (contains_drop_last s "1" "2") as H12.
  change ("1" +:+ "1") with "11" in H11. change ("1" +:+ "2") with "12" in H12.
  destruct (contains s "01"), (contains s "02"), (contains s "03"),
    (contains s "11"), (contains s "12");
    rewrite ?H01, ?H02, ?H03, ?H11, ?H12 by done; simpl;
    repeat match goal with
           | |- context [contains s ?p] => destruct (contains s p); simpl
           end; done.
Qed.

End FilterFacts.

(** The date patterns never decide: the verdict is the token test. *)
Lemma date_patterns_redundant (url : string) :
  _contains_target_month url =
  existsb (fun month_patterns : string * list string =>
             existsb (fun pattern => Str.contains (Str.lower url) pattern)
                     (snd month_patterns))
          TARGET_MONTHS.
Proof.
  unfold _contains_target_month. cbn zeta.
  destruct (existsb _ date_patterns) eqn:Hre; [| by destruct (existsb _ TARGET_MONTHS)].
  apply date_patterns_digit123 in Hre. rewrite <- digit123_lower in Hre.
  rewrite target_tokens_minimal. unfold digit123 in Hre. unfold minimal_tokens.
  cbn [existsb]. symmetry. rewrite !orb_true_iff in *. tauto.
Qed.

(** X1.  [_contains_target_month] accepts a URL exactly when its
    lowercase form contains one of thirteen tokens: a digit 1, 2 or 3, or
    one of the ten month names.  The four date patterns and the longer
    numeric tokens (01, 02, 03, 11, 12) never change the verdict. *)
Theorem _contains_target_month_minimal_tokens (url : string) :
  (_contains_target_month url =
   existsb (fun token => Str.contains (Str.lower url) token) minimal_tokens)
  /\ (existsb (fun pattern => Re.search pattern url) date_patterns = true ->
      digit123 (Str.lower url) = true).
Proof.
  split.
  - by rewrite date_patterns_redundant, target_tokens_minimal.
  - intros Hre. rewrite digit123_lower. by apply date_patterns_digit123.
Qed.

(** X2.  The filter is case-insensitive as a whole, although the date
    patterns are searched in the URL as given: URLs with the same
    lowercase form get the same verdict. *)
Theorem _contains_target_month_case_insensitive (url1 url2 : string) :
  Str.lower url1 = Str.lower url2 ->
  _contains_target_month url1 = _contains_target_month url2.
Proof.
  intros Hl. rewrite !date_patterns_redundant. by rewrite Hl.
Qed.

Lemma _contains_target_month_case_insensitive_witness :
  _contains_target_month "HTTPS://Site.com/Blog/MARS-News" =
  _contains_target_month "https://site.com/blog/mars-news".
Proof.
  apply _contains_target_month_case_insensitive. by vm_compute.
Defined.

(** ** Statistics and the filter *)

Lemma get_month_statistics_counts (links : list string) :
  get_month_statistics links =
  List.map (fun m => (fst m, count_matching (snd m) links)) TARGET_MONTHS.
Proof.
  unfold get_month_statistics. cbn [List.map TARGET_MONTHS fst snd].
  rewrite links_loop_TARGET_MONTHS. by rewrite !Nat.add_0_r.
Qed.

Lemma count_matching_app (patterns : list string) (l1 l2 : list string) :
  count_matching patterns (l1 ++ l2) =
  count_matching patterns l1 + count_matching patterns l2.
Proof. unfold count_matching. by rewrite List.filter_app, length_app. Qed.

Lemma rejected_matches_no_month (link : string) (m : string * list string) :
  _contains_target_month link = false ->
  m ∈ TARGET_MONTHS ->
  month_matches link (snd m) = false.
Proof.
  unfold _contains_target_month. cbn zeta.
  destruct (existsb _ date_patterns); [done |].
  destruct (existsb _ TARGET_MONTHS) eqn:Hex; [done |]. intros _ Hin.
  apply not_true_is_false. intros Hm. apply not_true_iff_false in Hex. apply Hex.
  apply existsb_exists. exists m. by rewrite <- list_elem_of_In.
Qed.

Lemma count_matching_filter (m : string * list string) (links : list string) :
  m ∈ TARGET_MONTHS ->
  count_matching (snd m) (filter_links_by_months links) = count_matching (snd m) links.
Proof.
  intros Hin. unfold filter_links_by_months.
  induction links as [|link links IH]; [done |]. simpl.
  destruct (_contains_target_month link) eqn:Hl.
  - by rewrite !count_matching_cons, IH.
  - rewrite count_matching_cons, IH. unfold hit.
    by rewrite (rejected_matches_no_month link m).
Qed.

(** X3.  Filtering does not change the statistics: a link the filter
    rejects matches no month, so [get_month_statistics] gives the same
    counts on a list of links and on its filtered sublist. *)
Theorem get_month_statistics_filter (links : list string) :
  get_month_statistics (filter_links_by_months links) = get_month_statistics links.
Proof.
  rewrite !get_month_statistics_counts.
  apply map_ext_in. intros m Hin%list_elem_of_In.
  by rewrite count_matching_filter.
Qed.

(** X5.  The statistics of a concatenation are the month-by-month sums
    of the statistics of the two parts. *)
Theorem get_month_statistics_app (links1 links2 : list string) :
  get_month_statistics (links1 ++ links2) =
  zip_with (fun a b => (fst a, snd a + snd b))
    (get_month_statistics links1) (get_month_statistics links2).
Proof.
  rewrite !get_month_statistics_counts. unfold TARGET_MONTHS.
  cbn [List.map zip_with fst snd]. by rewrite !count_matching_app.
Qed.

Lemma count_matching_Permutation (patterns : list string) (l1 l2 : list string) :
  l1 ≡ₚ l2 -> count_matching patterns l1 = count_matching patterns l2.
Proof.
  induction 1 as [|x l1 l2 _ IH|x y l|l1 l2 l3 _ IH1 _ IH2].
  - done.
  - by rewrite !count_matching_cons, IH.
  - rewrite !count_matching_cons. lia.
  - congruence.
Qed.

(** X6.  The statistics do not depend on the order of the links. *)
Theorem get_month_statistics_Permutation (links1 links2 : list string) :
  links1 ≡ₚ links2 ->
  get_month_statistics links1 = get_month_statistics links2.
Proof.
  intros Hp. rewrite !get_month_statistics_counts.
  apply map_ext. intros m. by rewrite (count_matching_Permutation _ _ _ Hp).
Qed.

Lemma get_month_statistics_Permutation_witness :
  get_month_statistics ["site.com/mars"; "site.com/2024-12-b"] =
  get_month_statistics ["site.com/2024-12-b"; "site.com/mars"].
Proof.
  apply get_month_statistics_Permutation. apply Permutation_swap.
Defined.

Lemma months_hit_bounds (link : string) :
  (if _contains_target_month link then 1 else 0) <= months_hit link
  /\ months_hit link <= (if _contains_target_month link then 5 else 0).
Proof.
  destruct (_contains_target_month link) eqn:Hl.
  - split.
    + rewrite date_patterns_redundant, target_tokens_minimal in Hl.
      unfold minimal_tokens in Hl. cbn [existsb] in Hl.
      unfold months_hit, TARGET_MONTHS, hit, month_matches. cbn [List.map snd existsb list_sum].
      pose proof (contains_drop_first "0" (Str.lower link) "1") as H01.
      repeat match goal with
             | |- context [Str.contains (Str.lower link) ?p] =>
                 destruct (Str.contains (Str.lower link) p); simpl in *; try lia
             end; done.
    + unfold months_hit, TARGET_MONTHS, hit. cbn [List.map snd list_sum].
      repeat match goal with
             | |- context [month_matches link ?p] => destruct (month_matches link p)
             end; simpl; lia.
  - unfold months_hit, hit.
    assert (Forall (fun m => month_matches link (snd m) = false) TARGET_MONTHS) as Hall.
    { apply Forall_forall. intros m Hm. by apply rejected_matches_no_month. }
    unfold TARGET_MONTHS in *. cbn [List.map snd list_sum].
    repeat (apply Forall_cons in Hall as [Hm Hall]; cbn [snd] in Hm; rewrite Hm; clear Hm).
    simpl. lia.
Qed.

Lemma stats_total_cons (link : string) (links : list string) :
  list_sum (List.map snd (get_month_statistics (link :: links))) =
  months_hit link + list_sum (List.map snd (get_month_statistics links)).
Proof.
  rewrite !get_month_statistics_counts. unfold months_hit, TARGET_MONTHS.
  cbn [List.map snd fst]. rewrite !count_matching_cons.
  unfold list_sum. cbn [fold_right]. lia.
Qed.

(** X4.  Every link the filter accepts is counted under at least one
    month and at most five: the sum of the counts lies between the number
    of accepted links and five times that number, and no single count
    exceeds the number of accepted links. *)
Theorem get_month_statistics_total (links : list string) :
  let total := list_sum (List.map snd (get_month_statistics links)) in
  length (filter_links_by_months links) <= total
  /\ total <= 5 * length (filter_links_by_months links)
  /\ Forall (fun entry => snd entry <= length (filter_links_by_months links))
       (get_month_statistics links).
Proof.
  cbn zeta. split; [| split].
  - induction links as [|link links IH]; [by vm_compute |].
    rewrite stats_total_cons. unfold filter_links_by_months in *. simpl.
    pose proof (months_hit_bounds link) as [Hlo _].
    destruct (_contains_target_month link); simpl; lia.
  - induction links as [|link links IH]; [by vm_compute |].
    rewrite stats_total_cons. unfold filter_links_by_months in *. simpl.
    pose proof (months_hit_bounds link) as [_ Hhi].
    destruct (_contains_target_month link); simpl length; lia.
  - rewrite get_month_statistics_counts.
    apply Forall_forall. intros entry (m & <- & Hm)%list_elem_of_In%in_map_iff. simpl.
    rewrite <- count_matching_filter by by apply list_elem_of_In.
    unfold count_matching. apply List.filter_length_le.
Qed.

(** ** More on the extractor and the traversal *)

Section TraversalMore.
Context `{UrlLib}.
Implicit Types (self : LinkExtractor) (st : CrawlState) (w : World).

Lemma extract_elem self (soup : list Tag) (current_url u : string) :
  u ∈ _extract_links_from_page self soup current_url <->
  exists raw, raw ∈ find_all_a_href soup /\ Str.strip raw <> "" /\
    non_navigational (Str.strip raw) = false /\
    u = urljoin current_url (Str.strip raw) /\ netloc u = domain self.
Proof.
  unfold _extract_links_from_page. rewrite extract_loop_elem.
  split; [intros [Hin|?]; [by apply elem_of_empty in Hin | done] | by right].
Qed.

Lemma find_all_a_href_app (soup1 soup2 : list Tag) :
  find_all_a_href (soup1 ++ soup2) = find_all_a_href soup1 ++ find_all_a_href soup2.
Proof. apply omap_app. Qed.

Lemma find_all_a_href_length (soup : list Tag) :
  length (find_all_a_href soup) <= length soup.
Proof.
  unfold find_all_a_href. induction soup as [|t soup IH]; csimpl; [done |].
  destruct (if decide (tag_name t = "a") then tag_href t else None); csimpl; lia.
Qed.

(** X7.  The links of a document made of two parts are the union of the
    links of the parts. *)
Theorem _extract_links_from_page_app self (soup1 soup2 : list Tag) (current_url : string) :
  _extract_links_from_page self (soup1 ++ soup2) current_url =
  _extract_links_from_page self soup1 current_url
  ∪ _extract_links_from_page self soup2 current_url.
Proof.
  apply set_eq. intros u. rewrite elem_of_union, !extract_elem.
  setoid_rewrite find_all_a_href_app. setoid_rewrite elem_of_app. naive_solver.
Qed.

Lemma extract_loop_size self (current_url : string) (hrefs : list string)
    (links : gset string) :
  size (extract_loop self current_url hrefs links) <= length hrefs + size links.
Proof.
  revert links. induction hrefs as [|raw hrefs IH]; intros links; simpl; [lia |].
  destruct (_ && _); [| specialize (IH links); lia].
  destruct (decide _); [| specialize (IH links); lia].
  etrans; [apply IH |].
  assert (links ∖ {[urljoin current_url (Str.strip raw)]} ⊆ links) as Hsub by set_solver.
  apply subseteq_size in Hsub.
  rewrite size_union_alt, size_singleton. lia.
Qed.

(** X8.  The extracted set does not depend on the order of the elements
    of the document, it has at most as many URLs as the document has
    elements, and all of them are on the configured domain. *)
Theorem _extract_links_from_page_bounds self (soup soup' : list Tag) (current_url : string) :
  soup ≡ₚ soup' ->
  _extract_links_from_page self soup current_url =
    _extract_links_from_page self soup' current_url
  /\ size (_extract_links_from_page self soup current_url) <= length soup
  /\ (forall u, u ∈ _extract_links_from_page self soup current_url ->
        netloc u = domain self).
Proof.
  intros Hp. split; [| split].
  - apply set_eq. intros u. rewrite !extract_elem.
    assert (forall raw, raw ∈ find_all_a_href soup <-> raw ∈ find_all_a_href soup') as Hraw.
    { intros raw. rewrite !find_all_a_href_elem. by setoid_rewrite Hp. }
    by setoid_rewrite Hraw.
  - unfold _extract_links_from_page. etrans; [apply extract_loop_size |].
    rewrite size_empty, Nat.add_0_r. apply find_all_a_href_length.
  - intros u (raw & _ & _ & _ & _ & Hd)%extract_elem. done.
Qed.

Lemma provenance_initial self : provenance self (initial self).
Proof.
  split; simpl.
  - intros u Hu. by apply elem_of_empty in Hu.
  - intros u ->%list_elem_of_singleton. by left.
  - intros u Hu. by apply elem_of_empty in Hu.
  - intros u Hu. by apply elem_of_nil in Hu.
Qed.

Lemma provenance_step self st st' :
  step self st st' -> provenance self st -> provenance self st'.
Proof.
  intros Hstep [Hdom Hq Hv Hf].
  assert (forall cur rest, to_visit st = cur :: rest ->
            (cur = base_url self \/ cur ∈ all_links st)
            /\ forall u, u ∈ rest -> u = base_url self \/ u ∈ all_links st) as Hpop.
  { intros cur rest Hto. rewrite Hto in Hq. split; [apply Hq; by left |].
    intros u Hu. apply Hq. by right. }
  destruct Hstep as [st cur rest Hto Hin | st cur rest Hto Hnin
                    | st cur rest soup order Hto Hnin Hperm];
    destruct (Hpop _ _ Hto) as [Hcur Hrest]; split; simpl; try done.
  - intros u. rewrite fetched_app. simpl. rewrite elem_of_app, list_elem_of_singleton.
    intros [?| ->]; auto.
  - intros u [Hu|Hu]%elem_of_union; [by apply Hdom |].
    by apply extract_elem in Hu as (raw & _ & _ & _ & _ & Hd).
  - intros u [Hu|(Hu & _ & _)]%enqueue_elem.
    + destruct (Hrest u Hu); [by left | right; set_solver].
    + right. rewrite Hperm in Hu. apply elem_of_elements in Hu. set_solver.
  - intros u [->%elem_of_singleton|Hu]%elem_of_union.
    + destruct Hcur; [by left | right; set_solver].
    + destruct (Hv u Hu); [by left | right; set_solver].
  - intros u. rewrite fetched_app. simpl. rewrite elem_of_app, list_elem_of_singleton.
    intros [Hu| ->].
    + destruct (Hf u Hu); [by left | right; set_solver].
    + destruct Hcur; [by left | right; set_solver].
Qed.

Lemma reachable_provenance_inv self st : reachable self st -> provenance self st.
Proof.
  apply (rtc_ind_r (provenance self) (initial self)).
  - apply provenance_initial.
  - intros y z _ Hstep Hy. by eapply provenance_step.
Qed.

(** X9.  In every reachable state all discovered links are on the
    configured domain, and every URL requested, visited or pending is the
    base URL or a discovered link. *)
Theorem reachable_provenance self st :
  reachable self st ->
  (forall u, u ∈ all_links st -> netloc u = domain self)
  /\ (forall u, u ∈ fetched (trace st) -> u = base_url self \/ u ∈ all_links st)
  /\ (forall u, u ∈ visited st -> u = base_url self \/ u ∈ all_links st)
  /\ (forall u, u ∈ to_visit st -> u = base_url self \/ u ∈ all_links st).
Proof.
  intros Hr. by destruct (reachable_provenance_inv self st Hr).
Qed.

(** X10.  The loop only adds: along any sequence of iterations the
    visited set and the discovered set grow, the page count does not
    decrease, and the trace is extended. *)
Theorem step_monotone self st st' :
  rtc (step self) st st' ->
  visited st ⊆ visited st'
  /\ all_links st ⊆ all_links st'
  /\ page_count st <= page_count st'
  /\ trace st `prefix_of` trace st'.
Proof.
  induction 1 as [st|st1 st2 st3 Hstep _ IH].
  - done.
  - destruct IH as (Hv & Ha & Hp & Ht).
    destruct Hstep as [st cur rest Hto Hin | st cur rest Hto Hnin
                      | st cur rest soup order Hto Hnin Hperm]; simpl in *.
    + done.
    + repeat split; try done. etrans; [| done]. by apply prefix_app_r.
    + repeat split; [set_solver | set_solver | lia |].
      etrans; [| done]. by apply prefix_app_r.
Qed.

Lemma enqueue_appends (V : gset string) (order q : list string) :
  exists added, enqueue V order q = q ++ added /\ added `sublist_of` order.
Proof.
  revert q. induction order as [|link order IH]; intros q; simpl.
  - exists []. by rewrite app_nil_r.
  - destruct (_ && _).
    + destruct (IH (q ++ [link])) as (added & -> & Hsub).
      exists (link :: added). split; [by rewrite <- app_assoc | by constructor].
    + destruct (IH q) as (added & -> & Hsub).
      exists added. split; [done | by constructor].
Qed.

(** X11.  The frontier is a queue: an iteration removes its head, keeps
    the pending URLs in their order and appends the new ones behind
    them; the appended URLs are distinct, not visited, not pending,
    accepted by [_should_visit_link], and discovered. *)
Theorem step_fifo self st st' :
  step self st st' ->
  exists added,
    to_visit st' = tail (to_visit st) ++ added
    /\ NoDup added
    /\ forall u, u ∈ added ->
         (u ∉ visited st') /\ (u ∉ tail (to_visit st)) /\ _should_visit_link u = true
         /\ u ∈ all_links st'.
Proof.
  intros Hstep.
  destruct Hstep as [st cur rest Hto Hin | st cur rest Hto Hnin
                    | st cur rest soup order Hto Hnin Hperm]; rewrite Hto; simpl.
  - exists []. rewrite app_nil_r. split; [done |]. split; [constructor |].
    intros u Hu. by apply elem_of_nil in Hu.
  - exists []. rewrite app_nil_r. split; [done |]. split; [constructor |].
    intros u Hu. by apply elem_of_nil in Hu.
  - destruct (enqueue_appends ({[cur]} ∪ visited st) order rest) as (added & Heq & Hsub).
    exists added. split; [done |].
    assert (NoDup order) as Hnd by (rewrite Hperm; apply NoDup_elements).
    split; [by eapply sublist_NoDup |].
    assert (forall (q : list string) (V : gset string) (o a : list string),
              NoDup o -> enqueue V o q = q ++ a ->
              forall u, u ∈ a -> (u ∉ V) /\ (u ∉ q) /\ _should_visit_link u = true /\ u ∈ o)
      as Hnew.
    { clear. intros q V o. revert q. induction o as [|link o IH]; intros q a Hnd Heq u Hu.
      - simpl in Heq. rewrite <- (app_nil_r q) in Heq at 1.
        apply app_inv_head in Heq as <-. by apply elem_of_nil in Hu.
      - apply NoDup_cons in Hnd as [Hlink Hnd]. simpl in Heq.
        destruct (bool_decide (link ∉ V)) eqn:HV; simpl in Heq;
          [destruct (bool_decide (link ∉ q)) eqn:Hq; simpl in Heq;
           [destruct (_should_visit_link link) eqn:Hvis |] |].
        + destruct (enqueue_appends V o (q ++ [link])) as (a' & Heq' & _).
          rewrite Heq', <- app_assoc in Heq. apply app_inv_head in Heq as <-.
          apply bool_decide_eq_true in HV, Hq.
          apply elem_of_cons in Hu as [->|Hu]; [repeat split; try done; by left |].
          destruct (IH _ _ Hnd Heq' u Hu) as (? & Hnq & ? & ?).
          repeat split; try done; [set_solver | by right].
        + destruct (IH _ _ Hnd Heq u Hu) as (? & ? & ? & ?).
          repeat split; try done. by right.
        + destruct (IH _ _ Hnd Heq u Hu) as (? & ? & ? & ?).
          repeat split; try done. by right.
        + destruct (IH _ _ Hnd Heq u Hu) as (? & ? & ? & ?).
          repeat split; try done. by right. }
    intros u Hu. destruct (Hnew _ _ _ _ Hnd Heq u Hu) as (? & ? & ? & Ho).
    repeat split; try done.
    rewrite Hperm in Ho. apply elem_of_elements in Ho. set_solver.
Qed.

Lemma sleeps_app (tr1 tr2 : list event) : sleeps (tr1 ++ tr2) = sleeps tr1 ++ sleeps tr2.
Proof. apply omap_app. Qed.

Lemma warnings_app (tr1 tr2 : list event) :
  warnings (tr1 ++ tr2) = warnings tr1 ++ warnings tr2.
Proof. apply omap_app. Qed.

Lemma replicate_snoc (n : nat) (d : Q) : replicate n d ++ [d] = replicate (S n) d.
Proof. induction n as [|n IH]; simpl; [done | by rewrite IH]. Qed.

Lemma page_count_size self st :
  reachable self st ->
  page_count st = size (visited st) /\ page_count st = length (fetched_ok (trace st)).
Proof.
  intros Hr. pose proof (reachable_inv self st Hr) as [_ _ Hok Honce Hcount].
  split; [| done].
  rewrite Hcount, <- (size_list_to_set (C := gset string)) by done.
  f_equal. apply set_eq. intros u. by rewrite elem_of_list_to_set, Hok.
Qed.

(** X12.  The page count is the number of visited URLs and of successful
    requests; the loop has slept exactly once per page, each time for the
    configured delay; every request is a page or a warning. *)
Theorem reachable_accounting self st :
  reachable self st ->
  page_count st = size (visited st)
  /\ page_count st = length (fetched_ok (trace st))
  /\ sleeps (trace st) = replicate (page_count st) (delay self)
  /\ length (fetched (trace st)) = page_count st + length (warnings (trace st)).
Proof.
  intros Hr. destruct (page_count_size self st Hr) as [Hsize Hcount].
  split; [done |]. split; [done |].
  clear Hsize Hcount. revert st Hr.
    apply (rtc_ind_r (fun st => sleeps (trace st) = replicate (page_count st) (delay self)
             /\ length (fetched (trace st)) = page_count st + length (warnings (trace st)))
             (initial self)); [done |].
  intros st st' _ Hstep [Hs Hl].
  destruct Hstep as [st cur rest Hto Hin | st cur rest Hto Hnin
                    | st cur rest soup order Hto Hnin Hperm]; simpl.
  - done.
  - rewrite sleeps_app, fetched_app, warnings_app, !length_app. simpl.
    rewrite ?app_nil_r. split; [done | lia].
  - rewrite sleeps_app, fetched_app, warnings_app, !length_app. simpl.
    rewrite Hs, ?app_nil_r, replicate_snoc. split; [done | lia].
Qed.

(** X13.  What [get_all_domain_links] returns: a list without
    duplicates of URLs on the configured domain, which holds every URL
    requested except possibly the base URL; the final log line reports
    the number of successful requests and the length of the list, and
    the former is at most the latter plus one. *)
Theorem get_all_domain_links_result self w (fuel : nat) (result : list string)
    (tr : list event) :
  get_all_domain_links fuel self w = Some (result, tr) ->
  NoDup result
  /\ (forall u, u ∈ result -> netloc u = domain self)
  /\ (forall u, u ∈ fetched tr -> u = base_url self \/ u ∈ result)
  /\ last tr = Some (LogInfoDone (length (fetched_ok tr)) (length result))
  /\ length (fetched_ok tr) <= S (length result).
Proof.
  unfold get_all_domain_links. destruct (crawl fuel self w (initial self)) as [st|] eqn:Hc; [| done].
  intros [= <- <-]. apply crawl_rtc in Hc.
  destruct (reachable_provenance_inv self st Hc) as [Hdom _ Hv Hf].
  destruct (page_count_size self st Hc) as [Hsize Hcount].
  simpl. rewrite fetched_app, fetched_ok_app. simpl. rewrite !app_nil_r.
  split; [apply NoDup_elements |]. split; [| split; [| split]].
  - intros u Hu%elem_of_elements. by apply Hdom.
  - intros u Hu. rewrite elem_of_elements. by apply Hf.
  - rewrite last_snoc. by rewrite <- Hcount.
  - rewrite <- Hcount, Hsize.
    change (length (elements (all_links st))) with (size (all_links st)).
    assert (visited st ⊆ {[base_url self]} ∪ all_links st) as Hsub.
    { intros u Hu. destruct (Hv u Hu); set_solver. }
    apply subseteq_size in Hsub.
    pose proof (size_union_alt {[base_url self]} (all_links st)) as Hu.
    assert (all_links st ∖ {[base_url self]} ⊆ all_links st) as Hd by set_solver.
    apply subseteq_size in Hd. rewrite size_singleton in Hu. lia.
Qed.

(** X14.  When the request for the base URL fails, the crawl ends after
    that one request and returns no link. *)
Theorem base_url_down self w (fuel : nat) :
  w 0 (base_url self) = Raises ->
  get_all_domain_links (S fuel) self w =
    Some ([], [LogInfoStart (domain self);
               LogInfoPage 1 (base_url self);
               HttpGet (base_url self) false;
               LogWarning (base_url self);
               LogInfoDone 0 0]).
Proof.
  intros Hw. unfold get_all_domain_links. simpl. unfold loop_body. simpl.
  rewrite decide_False by apply not_elem_of_empty. rewrite Hw.
  by destruct fuel.
Qed.

(** *** Termination over a finite set of URLs *)






(** *** What a finished crawl has explored *)

Lemma explored_loop_body self (site : string -> response) st :
  explored self site st -> explored self site (loop_body self (fun _ => site) st).
Proof.
  intros Hall. unfold loop_body.
  destruct (to_visit st) as [|cur rest] eqn:Hto; [done |].
  destruct Hall as [Hbase Hexp]. rewrite Hto in Hbase.
  assert (forall u, u ∈ visited st ->
            exists soup, site u = Returns soup
              /\ forall v, v ∈ _extract_links_from_page self soup u ->
                   v ∈ all_links st
                   /\ (_should_visit_link v = true ->
                       v ∈ visited st \/ v ∈ cur :: rest \/ site v = Raises)) as Hexp'.
  { intros u Hu. destruct (Hexp u Hu) as (soup & Hs & Hl). rewrite Hto in Hl. eauto. }
  clear Hexp. rename Hexp' into Hexp.
  destruct (decide (cur ∈ visited st)) as [Hvis|Hvis].
  { split; simpl.
    - destruct Hbase as [?|[[->|?]%elem_of_cons|?]]; auto.
    - intros u Hu. destruct (Hexp u Hu) as (soup & Hs & Hl). exists soup. split; [done |].
      intros v Hv. destruct (Hl v Hv) as [Ha Hn]. split; [done |]. intros Hok.
      destruct (Hn Hok) as [?|[[->|?]%elem_of_cons|?]]; auto. }
  destruct (site cur) as [|soup] eqn:Hsite.
  { split; simpl.
    - destruct Hbase as [?|[[->|?]%elem_of_cons|?]]; auto.
    - intros u Hu. destruct (Hexp u Hu) as (soup & Hs & Hl). exists soup. split; [done |].
      intros v Hv. destruct (Hl v Hv) as [Ha Hn]. split; [done |]. intros Hok.
      destruct (Hn Hok) as [?|[[->|?]%elem_of_cons|?]]; auto. }
  assert (forall v, v ∈ visited st \/ v ∈ cur :: rest \/ site v = Raises ->
            v ∈ {[cur]} ∪ visited st
            \/ v ∈ enqueue ({[cur]} ∪ visited st)
                   (elements (_extract_links_from_page self soup cur)) rest
            \/ site v = Raises) as Hkeep.
  { intros v [?|[[->|?]%elem_of_cons|?]]; [left; set_solver | left; set_solver | | by auto].
    right; left. apply enqueue_elem. by left. }
  split; simpl; [by apply Hkeep |].
  intros u [->%elem_of_singleton|Hu]%elem_of_union.
  - exists soup. split; [done |]. intros v Hv. split; [set_solver |]. intros Hok.
    destruct (decide (v ∈ {[cur]} ∪ visited st)) as [|Hnv]; [by left |].
    right; left. apply enqueue_elem. right. by rewrite elem_of_elements.
  - destruct (Hexp u Hu) as (soup' & Hs & Hl). exists soup'. split; [done |].
    intros v Hv. destruct (Hl v Hv) as [Ha Hn]. split; [set_solver |]. intros Hok.
    by apply Hkeep, Hn.
Qed.

(** X16.  On a site that answers each URL always the same way, a crawl
    that ends has explored what it could: the base URL was visited
    unless it is down, every visited URL returned a page, all links of
    that page are discovered, and every link of it that
    [_should_visit_link] accepts was visited unless it is down. *)
Theorem crawl_explores self (site : string -> response) (fuel : nat) st :
  crawl fuel self (fun _ => site) (initial self) = Some st ->
  (base_url self ∈ visited st \/ site (base_url self) = Raises)
  /\ forall u, u ∈ visited st ->
       exists soup, site u = Returns soup
         /\ forall v, v ∈ _extract_links_from_page self soup u ->
              v ∈ all_links st
              /\ (_should_visit_link v = true -> v ∈ visited st \/ site v = Raises).
Proof.
  intros Hc.
  assert (explored self site st /\ to_visit st = []) as [[Hbase Hexp] Hto].
  { assert (explored self site (initial self)) as Hinit.
    { split; simpl; [right; left; by left |]. intros u Hu. by apply elem_of_empty in Hu. }
    revert Hc Hinit. generalize (initial self). clear.
    induction fuel as [|fuel IH]; intros st0; simpl;
      destruct (to_visit st0) eqn:Hto; intros Hc Hexp; simplify_eq; try done.
    eapply IH; [done |]. by apply explored_loop_body. }
  rewrite Hto in Hbase, Hexp. split.
  - destruct Hbase as [?|[Hin|?]]; [by left | by apply elem_of_nil in Hin | by right].
  - intros u Hu. destruct (Hexp u Hu) as (soup & Hs & Hl). exists soup. split; [done |].
    intros v Hv. destruct (Hl v Hv) as [Ha Hn]. split; [done |]. intros Hok.
    destruct (Hn Hok) as [?|[Hin|?]]; [by left | by apply elem_of_nil in Hin | by right].
Qed.

End TraversalMore.

(** ** The properties above on the small sites *)

Lemma _extract_links_from_page_bounds_witness :
  @_extract_links_from_page Absolute.lib Site.self
     [Site.a Site.page_b; Site.a Site.page_c] Site.home =
    @_extract_links_from_page Absolute.lib Site.self
     [Site.a Site.page_c; Site.a Site.page_b] Site.home
  /\ size (@_extract_links_from_page Absolute.lib Site.self
             [Site.a Site.page_b; Site.a Site.page_c] Site.home)
     <= length [Site.a Site.page_b; Site.a Site.page_c]
  /\ (forall u, u ∈ @_extract_links_from_page Absolute.lib Site.self
                     [Site.a Site.page_b; Site.a Site.page_c] Site.home ->
        @netloc Absolute.lib u = domain Site.self).
Proof.
  apply (@_extract_links_from_page_bounds Absolute.lib Site.self).
  apply Permutation_swap.
Defined.

Lemma reachable_provenance_witness :
  let st := @run Absolute.lib 2 Site.self Site.world (initial Site.self) in
  (forall u, u ∈ all_links st -> @netloc Absolute.lib u = domain Site.self)
  /\ (forall u, u ∈ fetched (trace st) -> u = base_url Site.self \/ u ∈ all_links st)
  /\ (forall u, u ∈ visited st -> u = base_url Site.self \/ u ∈ all_links st)
  /\ (forall u, u ∈ to_visit st -> u = base_url Site.self \/ u ∈ all_links st).
Proof.
  apply (@reachable_provenance Absolute.lib Site.self). apply run_reachable.
Defined.

Lemma step_monotone_witness :
  let st := initial Site.self in
  let st' := @run Absolute.lib 2 Site.self Site.world_up (initial Site.self) in
  visited st ⊆ visited st'
  /\ all_links st ⊆ all_links st'
  /\ page_count st <= page_count st'
  /\ trace st `prefix_of` trace st'.
Proof.
  apply (@step_monotone Absolute.lib Site.self). apply run_rtc.
Defined.

Lemma step_fifo_witness :
  let st := initial Site.self in
  let st' := @loop_body Absolute.lib Site.self Site.world_up (initial Site.self) in
  exists added,
    to_visit st' = tail (to_visit st) ++ added
    /\ NoDup added
    /\ forall u, u ∈ added ->
         (u ∉ visited st') /\ (u ∉ tail (to_visit st)) /\ _should_visit_link u = true
         /\ u ∈ all_links st'.
Proof.
  apply (@step_fifo Absolute.lib Site.self). by apply loop_body_step.
Defined.

Lemma reachable_accounting_witness :
  let st := @run Absolute.lib 3 Site.self Site.world (initial Site.self) in
  page_count st = size (visited st)
  /\ page_count st = length (fetched_ok (trace st))
  /\ sleeps (trace st) = replicate (page_count st) (delay Site.self)
  /\ length (fetched (trace st)) = page_count st + length (warnings (trace st)).
Proof.
  apply (@reachable_accounting Absolute.lib Site.self). apply run_reachable.
Defined.

Lemma get_all_domain_links_result_witness :
  let result := [Site.page_c; Site.asset; Site.page_b] in
  let tr := [LogInfoStart "site.com";
             LogInfoPage 1 Site.home; HttpGet Site.home true; Sleep (1 # 2);
             LogInfoPage 2 Site.page_c; HttpGet Site.page_c false; LogWarning Site.page_c;
             LogInfoPage 2 Site.page_b; HttpGet Site.page_b false; LogWarning Site.page_b;
             LogInfoDone 1 3] in
  NoDup result
  /\ (forall u, u ∈ result -> @netloc Absolute.lib u = domain Site.self)
  /\ (forall u, u ∈ fetched tr -> u = base_url Site.self \/ u ∈ result)
  /\ last tr = Some (LogInfoDone (length (fetched_ok tr)) (length result))
  /\ length (fetched_ok tr) <= S (length result).
Proof.
  apply (@get_all_domain_links_result Absolute.lib Site.self Site.world 10).
  by vm_compute.
Defined.

Lemma base_url_down_witness :
  @get_all_domain_links Absolute.lib 1 Site.self (fun _ _ => Raises) =
    Some ([], [LogInfoStart (domain Site.self);
               LogInfoPage 1 (base_url Site.self);
               HttpGet (base_url Site.self) false;
               LogWarning (base_url Site.self);
               LogInfoDone 0 0]).
Proof.
  by apply (@base_url_down Absolute.lib Site.self (fun _ _ => Raises) 0).
Defined.

Lemma crawl_explores_witness :
  let st := @run Absolute.lib 3 Site.self Site.world (initial Site.self) in
  (base_url Site.self ∈ visited st \/ Site.world 0 (base_url Site.self) = Raises)
  /\ forall u, u ∈ visited st ->
       exists soup, Site.world 0 u = Returns soup
         /\ forall v, v ∈ @_extract_links_from_page Absolute.lib Site.self soup u ->
              v ∈ all_links st
              /\ (_should_visit_link v = true -> v ∈ visited st \/ Site.world 0 v = Raises).
Proof.
  apply (@crawl_explores Absolute.lib Site.self (Site.world 0) 10).
  by vm_compute.
Defined.


(** ** Failed requests, raised exceptions, the first request *)

Section RaisingFacts.
Context `{UrlLib} (faults : Raising).
Implicit Types (self : LinkExtractor) (st : CrawlState) (w : World).




Lemma extract_loop_exn_spec self (current_url : string)
    (hrefs : list string) (links : gset string) :
  let refused raw :=
    Str.strip raw <> "" /\ non_navigational (Str.strip raw) = false /\
    (urljoin_raises faults current_url (Str.strip raw) = true
     \/ urlparse_raises faults (urljoin current_url (Str.strip raw)) = true) in
  match extract_loop_exn faults self current_url hrefs links with
  | None => exists raw, raw ∈ hrefs /\ refused raw
  | Some result =>
      result = extract_loop self current_url hrefs links
      /\ forall raw, raw ∈ hrefs -> ~ refused raw
  end.
Proof.
  cbn zeta. revert links. induction hrefs as [|raw hrefs IH]; intros links; simpl.
  - split; [done |]. intros raw Hin. by apply elem_of_nil in Hin.
  - assert (forall P : string -> Prop,
              (forall r, r ∈ hrefs -> ~ P r) -> ~ P raw ->
              forall r, r ∈ raw :: hrefs -> ~ P r) as Hcons.
    { intros P Hall Hraw r [->|Hin]%elem_of_cons; auto. }
    assert (forall P : string -> Prop,
              (exists r, r ∈ hrefs /\ P r) -> exists r, r ∈ raw :: hrefs /\ P r) as Hex.
    { intros P (r & Hin & Hr). exists r. split; [by right | done]. }
    destruct (decide (Str.strip raw = "")) as [Hempty|Hfull]; simpl.
    { specialize (IH links). destruct (extract_loop_exn _ _ _ hrefs links).
      - destruct IH as [-> Hall]. split; [done |]. apply Hcons; [done |]. tauto.
      - by apply Hex. }
    destruct (non_navigational (Str.strip raw)) eqn:Hnav; simpl.
    { specialize (IH links). destruct (extract_loop_exn _ _ _ hrefs links).
      - destruct IH as [-> Hall]. split; [done |]. apply Hcons; [done |].
        intros (_ & ? & _). congruence.
      - by apply Hex. }
    destruct (urljoin_raises faults current_url (Str.strip raw)) eqn:Hjoin.
    { exists raw. split; [by left | auto]. }
    destruct (urlparse_raises faults (urljoin current_url (Str.strip raw))) eqn:Hparse.
    { exists raw. split; [by left | auto]. }
    destruct (decide (netloc (urljoin current_url (Str.strip raw)) = domain self)).
    + specialize (IH ({[urljoin current_url (Str.strip raw)]} ∪ links)).
      destruct (extract_loop_exn _ _ _ hrefs _).
      * destruct IH as [-> Hall]. split; [done |]. apply Hcons; [done |].
        intros (_ & _ & [?|?]); congruence.
      * by apply Hex.
    + specialize (IH links). destruct (extract_loop_exn _ _ _ hrefs links).
      * destruct IH as [-> Hall]. split; [done |]. apply Hcons; [done |].
        intros (_ & _ & [?|?]); congruence.
      * by apply Hex.
Qed.

Lemma extract_exn_some self (soup : list Tag) (current_url : string) (links : gset string) :
  _extract_links_from_page_exn faults self soup current_url = Some links ->
  links = _extract_links_from_page self soup current_url.
Proof.
  unfold _extract_links_from_page_exn. intros Hsome.
  pose proof (extract_loop_exn_spec self current_url (find_all_a_href soup) ∅)
    as Hspec. cbn zeta in Hspec. rewrite Hsome in Hspec. by destruct Hspec.
Qed.

Lemma loop_body_exn_continue self w st st' :
  loop_body_exn faults self w st = Continue st' -> st' = loop_body self w st.
Proof.
  unfold loop_body_exn, loop_body.
  destruct (to_visit st) as [|cur rest]; [by intros [= <-] |].
  destruct (decide (cur ∈ visited st)); [by intros [= <-] |].
  destruct (w _ cur) as [|soup]; [by intros [= <-] |].
  destruct (_extract_links_from_page_exn faults self soup cur) as [links|] eqn:Hex; [| done].
  apply extract_exn_some in Hex as ->.
  destruct (sleep_raises (delay self)); [done | by intros [= <-]].
Qed.

Lemma loop_body_exn_raise self w st (tr : list event) :
  loop_body_exn faults self w st = ValueError tr ->
  exists cur rest soup,
    to_visit st = cur :: rest
    /\ w (length (fetched (trace st))) cur = Returns soup
    /\ tr = trace st ++ [LogInfoPage (S (page_count st)) cur; HttpGet cur true]
    /\ (_extract_links_from_page_exn faults self soup cur = None
        \/ sleep_raises (delay self) = true).
Proof.
  unfold loop_body_exn.
  destruct (to_visit st) as [|cur rest]; [done |].
  destruct (decide (cur ∈ visited st)); [done |].
  destruct (w _ cur) as [|soup] eqn:Hw; [done |].
  destruct (_extract_links_from_page_exn faults self soup cur) as [links|] eqn:Hex.
  - destruct (sleep_raises (delay self)) eqn:Hs; [| done].
    intros [= <-]. exists cur, rest, soup. auto.
  - intros [= <-]. exists cur, rest, soup. auto.
Qed.


Lemma crawl_exn_sound self w (fuel : nat) st :
  match crawl_exn faults fuel self w st with
  | Returned result tr =>
      exists st', crawl fuel self w st = Some st'
                  /\ result = elements (all_links st') /\ tr = trace (finish st')
  | Raised tr =>
      exists st0 cur rest soup,
        rtc (step self) st st0
        /\ to_visit st0 = cur :: rest
        /\ w (length (fetched (trace st0))) cur = Returns soup
        /\ tr = trace st0 ++ [LogInfoPage (S (page_count st0)) cur; HttpGet cur true]
        /\ (_extract_links_from_page_exn faults self soup cur = None
            \/ sleep_raises (delay self) = true)
  | Unfinished => crawl fuel self w st = None
  end.
Proof.
  revert st. induction fuel as [|fuel IH]; intros st; simpl.
  - destruct (to_visit st); [by exists st | done].
  - destruct (to_visit st) as [|cur0 rest0] eqn:Hq; [by exists st |].
    destruct (loop_body_exn faults self w st) as [st1|tr] eqn:Hb.
    + apply loop_body_exn_continue in Hb as ->. specialize (IH (loop_body self w st)).
      destruct (crawl_exn faults fuel self w (loop_body self w st)); [done | | done].
      destruct IH as (st0 & cur & rest & soup & Hr & Hrest).
      exists st0, cur, rest, soup. split; [| done].
      etrans; [apply loop_body_rtc | done].
    + apply loop_body_exn_raise in Hb as (cur & rest & soup & Hto & Hw & Htr & Hwhy).
      by exists st, cur, rest, soup.
Qed.





(** C9 (as amended).  For every parsed document and source URL,
    [_extract_links_from_page] raises the [ValueError] of [urljoin] or
    [urlparse] when some [a] element has an [href] whose
    whitespace-stripped value is not empty, does not start with the
    lower-case prefixes [javascript:], [mailto:], [tel:], and is refused
    by one of them.  Otherwise it returns the set, without duplicates, of
    the URLs [urljoin(current_url, href)] for those stripped values whose
    [netloc] is literally [self.domain]: a port, user information or
    another letter case in the authority make a URL of the same host
    differ.  It takes no crawl state, so it changes none. *)
Theorem _extract_links_from_page_exn_spec self (soup : list Tag)
    (current_url : string) :
  let admitted tag raw :=
    tag ∈ soup /\ tag_name tag = "a" /\ tag_href tag = Some raw /\
    Str.strip raw <> "" /\
    Str.startswith (Str.strip raw) "javascript:" = false /\
    Str.startswith (Str.strip raw) "mailto:" = false /\
    Str.startswith (Str.strip raw) "tel:" = false in
  (_extract_links_from_page_exn faults self soup current_url = None <->
     exists tag raw,
       admitted tag raw
       /\ (urljoin_raises faults current_url (Str.strip raw) = true
           \/ urlparse_raises faults (urljoin current_url (Str.strip raw)) = true))
  /\ (forall links,
        _extract_links_from_page_exn faults self soup current_url = Some links ->
        links = _extract_links_from_page self soup current_url
        /\ NoDup (elements links)
        /\ forall u,
             u ∈ links <->
             exists tag raw,
               admitted tag raw
               /\ u = urljoin current_url (Str.strip raw)
               /\ netloc u = domain self).
Proof.
  cbn zeta.
  assert (forall raw,
            non_navigational (Str.strip raw) = false <->
            Str.startswith (Str.strip raw) "javascript:" = false /\
            Str.startswith (Str.strip raw) "mailto:" = false /\
            Str.startswith (Str.strip raw) "tel:" = false) as Hnav.
  { intros raw. unfold non_navigational. rewrite !orb_false_iff. tauto. }
  pose proof (extract_loop_exn_spec self current_url (find_all_a_href soup) ∅)
    as Hspec. cbn zeta in Hspec.
  unfold _extract_links_from_page_exn.
  destruct (extract_loop_exn faults self current_url (find_all_a_href soup) ∅)
    as [result|] eqn:Hres.
  - destruct Hspec as [-> Hnone]. split.
    + split; [done |]. intros (tag & raw & (Hin & Hname & Hhref & Hne & Hjs) & Hraise).
      exfalso. apply (Hnone raw).
      * apply find_all_a_href_elem. by exists tag.
      * split; [done |]. split; [by apply Hnav | done].
    + intros links [= <-]. split; [done |]. split; [apply NoDup_elements |].
      intros u. fold (_extract_links_from_page self soup current_url).
      rewrite extract_elem. split.
      * intros (raw & (tag & Hin & Hname & Hhref)%find_all_a_href_elem & Hne & Hn & Hu & Hd).
        apply Hnav in Hn. by exists tag, raw.
      * intros (tag & raw & (Hin & Hname & Hhref & Hne & Hjs) & Hu & Hd).
        exists raw. rewrite find_all_a_href_elem, Hnav. split; [by exists tag | done].
  - split; [| done]. split; [| done]. intros _.
    destruct Hspec as (raw & (tag & Hin & Hname & Hhref)%find_all_a_href_elem
                       & Hne & Hn & Hraise).
    apply Hnav in Hn. by exists tag, raw.
Qed.


Lemma get_all_domain_links_exn_bridge self w (fuel : nat) :
  match get_all_domain_links_exn faults fuel self w with
  | Returned result tr =>
      exists st, reachable self st
                 /\ result = elements (all_links st) /\ tr = trace (finish st)
  | _ => True
  end.
Proof.
  unfold get_all_domain_links_exn.
  pose proof (crawl_exn_sound self w fuel (initial self)) as Hs.
  destruct (crawl_exn faults fuel self w (initial self)); [| done | done].
  destruct Hs as (st' & Hc & -> & ->). exists st'. split; [| done].
  by eapply crawl_rtc.
Qed.

(** X21.  The method with its exceptions against the loop without them:
    when it returns, the loop returns the same list and log; when a
    [ValueError] leaves it, that happens in a state the loop reaches,
    right after a request that brought a page, because [urljoin] or
    [urlparse] refuses a link of that page or the delay is negative, and
    the log ends on that request; when the fuel does not suffice for one
    it does not for the other. *)
Theorem get_all_domain_links_exn_sound self w (fuel : nat) :
  match get_all_domain_links_exn faults fuel self w with
  | Returned result tr => get_all_domain_links fuel self w = Some (result, tr)
  | Raised tr =>
      exists st cur rest soup,
        reachable self st
        /\ to_visit st = cur :: rest
        /\ w (length (fetched (trace st))) cur = Returns soup
        /\ tr = trace st ++ [LogInfoPage (S (page_count st)) cur; HttpGet cur true]
        /\ (_extract_links_from_page_exn faults self soup cur = None
            \/ sleep_raises (delay self) = true)
  | Unfinished => get_all_domain_links fuel self w = None
  end.
Proof.
  unfold get_all_domain_links_exn, get_all_domain_links.
  pose proof (crawl_exn_sound self w fuel (initial self)) as Hs.
  destruct (crawl_exn faults fuel self w (initial self)).
  - destruct Hs as (st' & -> & -> & ->). done.
  - done.
  - by rewrite Hs.
Qed.


End RaisingFacts.



(** C9, the claim as stated fails: two links to the configured host, one
    with the default port and one in capitals, are dropped because their
    [netloc] is not the string [site.com]; and a link whose host has an
    unbalanced bracket makes the function raise instead of return. *)
Lemma same_host_links_dropped :
  SpecHost.host "https://site.com:443/x" = SpecHost.host_of_netloc (domain Site.self)
  /\ SpecHost.host "https://SITE.com/y" = SpecHost.host_of_netloc (domain Site.self)
  /\ elements (@_extract_links_from_page Absolute.lib Site.self
                 [Site.a "https://site.com:443/x"; Site.a "https://SITE.com/y";
                  Site.a "https://site.com/z"] Site.home)
     = ["https://site.com/z"]
  /\ @_extract_links_from_page_exn Absolute.lib Brackets.raising Site.self
       [Site.a "https://site.com/z"; Site.a "http://[site.com/x"] Site.home = None.
Proof. by vm_compute. Qed.


(** The method on the small site when a link of the home page has an
    unbalanced bracket: the [ValueError] leaves it after the first
    request; without that link it returns. *)
Example get_all_domain_links_exn_runs :
  @get_all_domain_links_exn Absolute.lib Brackets.raising 10 Site.self
     (fun _ _ => Returns [Site.a Site.page_b; Site.a "http://[site.com/x"])
  = Raised [LogInfoStart "site.com"; LogInfoPage 1 Site.home; HttpGet Site.home true]
  /\ @get_all_domain_links_exn Absolute.lib Brackets.raising 10 Site.self Site.world
     = Returned [Site.page_c; Site.asset; Site.page_b]
         [LogInfoStart "site.com";
          LogInfoPage 1 Site.home; HttpGet Site.home true; Sleep (1 # 2);
          LogInfoPage 2 Site.page_c; HttpGet Site.page_c false; LogWarning Site.page_c;
          LogInfoPage 2 Site.page_b; HttpGet Site.page_b false; LogWarning Site.page_b;
          LogInfoDone 1 3].
Proof. by vm_compute. Qed.

(** ** Saving the links *)

Section SaveFacts.
Local Arguments String.append !_ _ / : simpl nomatch.

Lemma string_app_assoc (s1 s2 s3 : string) : (s1 +:+ s2) +:+ s3 = s1 +:+ s2 +:+ s3.
Proof. induction s1 as [|c s1 IH]; simpl; [done | by rewrite IH]. Qed.

Lemma string_app_nil_r (s : string) : s +:+ "" = s.
Proof. induction s as [|c s IH]; simpl; [done | by rewrite IH]. Qed.

Lemma write_all_unlines (lines : list string) (text : string) :
  write_all lines text = text +:+ unlines lines.
Proof.
  revert text. induction lines as [|l lines IH]; intros text; simpl.
  - by rewrite string_app_nil_r.
  - rewrite IH. by rewrite !string_app_assoc.
Qed.

Lemma sorted_Permutation (links1 links2 : list string) :
  links1 ≡ₚ links2 -> sorted links1 = sorted links2.
Proof.
  intros Hp. unfold sorted. apply (Sorted_unique String.le).
  - apply Sorted_merge_sort, _.
  - apply Sorted_merge_sort, _.
  - by rewrite !merge_sort_Permutation.
Qed.






Lemma lookup_append_file (name : string) (bytes : list byte) (fs : gmap string (list byte)) :
  append_file name bytes fs !! name = Some (default [] (fs !! name) ++ bytes).
Proof. unfold append_file. by rewrite lookup_insert_eq. Qed.

Lemma lookup_append_file_ne (name other : string) (bytes : list byte)
    (fs : gmap string (list byte)) :
  other <> name -> append_file name bytes fs !! other = fs !! other.
Proof. intros Hne. unfold append_file. by rewrite lookup_insert_ne. Qed.

Lemma log_bytes_app (records : nat -> list byte) (from a b : nat) :
  log_bytes records from (a + b) =
  log_bytes records from a ++ log_bytes records (from + a) b.
Proof. unfold log_bytes. by rewrite seq_app, List.map_app, concat_app. Qed.

Lemma n_records_app (log1 log2 : list main_event) :
  n_records (log1 ++ log2) = n_records log1 + n_records log2.
Proof. unfold n_records. by rewrite List.filter_app, length_app. Qed.

Lemma lookup_log_after_save (fs : gmap string (list byte)) (out : string)
    (text b0 r b2 : list byte) :
  out <> log_filename ->
  append_file log_filename b2
    (append_file log_filename r (<[out := text]> (append_file log_filename b0 fs)))
    !! log_filename
  = Some (default [] (fs !! log_filename) ++ b0 ++ r ++ b2).
Proof.
  intros Hne. unfold append_file.
  rewrite lookup_insert_eq, lookup_insert_eq, lookup_insert_ne, lookup_insert_eq by done.
  simpl. by rewrite <- !app_assoc.
Qed.

Lemma log_bytes_around (records : nat -> list byte) (log rest : list main_event)
    (e : save_event) :
  log_bytes records 0 (n_records log) ++ records (n_records log)
  ++ log_bytes records (S (n_records log)) (n_records rest)
  = log_bytes records 0 (n_records (log ++ [Save e] ++ rest)).
Proof.
  rewrite !n_records_app. change (n_records [Save e]) with 1.
  rewrite (log_bytes_app records 0), (log_bytes_app records _ 1).
  do 2 f_equal.
  - unfold log_bytes. simpl. by rewrite app_nil_r.
  - f_equal. lia.
Qed.

End SaveFacts.


(** X18.  What [save_links_to_file] writes and logs does not depend on
    the order of the links it is given, whatever the file system does. *)
Theorem save_links_to_file_Permutation (linesep : string)
    (links1 links2 : list string) (filename : string) (fault : io_fault) (record : list byte)
    (fs : gmap string (list byte)) :
  links1 ≡ₚ links2 ->
  save_links_to_file linesep links1 filename fault record fs =
  save_links_to_file linesep links2 filename fault record fs.
Proof.
  intros Hp. unfold save_links_to_file.
  by rewrite (sorted_Permutation _ _ Hp), (Permutation_length Hp).
Qed.


(** ** The whole program *)

Section MainFacts.
Context `{UrlLib} (faults : Raising) (linesep : string).

(** X20.  When [main] ends and the file system raised no error, every
    file but [liens_filtres.txt] and the log file is as it was, and the
    log file has grown by the records of the run.  One of three things
    happened.  A [ValueError] of [urlparse] or [urljoin] ended the run on
    the critical error line, or no discovered link passed the filter and
    the run ended on the warning: [liens_filtres.txt] is as it was.  Or
    the file holds the bytes of lines that are sorted, distinct,
    accepted by [_contains_target_month] and on the domain of the site,
    and the save is logged with their number. *)
Theorem main_output (fuel : nat) (w : World) (records : nat -> list byte)
    (fs fs' : gmap string (list byte)) (log : list main_event) :
  main faults linesep fuel w NoFault records fs = Some (fs', log) ->
  (forall other, other <> output_filename -> other <> log_filename ->
     fs' !! other = fs !! other)
  /\ fs' !! log_filename =
       Some (default [] (fs !! log_filename) ++ log_bytes records 0 (n_records log))
  /\ ((last log = Some MainErrorCritical
       /\ fs' !! output_filename = fs !! output_filename)
      \/ (last log = Some MainWarningNone
          /\ fs' !! output_filename = fs !! output_filename)
      \/ exists lines,
           lines <> []
           /\ fs' !! output_filename = Some (file_bytes linesep (unlines lines))
           /\ Sorted String.le lines
           /\ NoDup lines
           /\ Forall (fun u => _contains_target_month u = true
                               /\ netloc u = netloc website_url) lines
           /\ Save (LogInfoSaved (length lines) output_filename) ∈ log).
Proof.
  assert (output_filename <> log_filename) as Hout by done.
  unfold main. destruct (urlparse_raises faults website_url).
  { intros [= <- <-]. split; [| split].
    - intros other _ Hl. by rewrite lookup_append_file_ne.
    - rewrite lookup_append_file. unfold log_bytes. simpl. by rewrite app_nil_r.
    - left. split; [done |]. by rewrite lookup_append_file_ne. }
  cbn zeta.
  pose proof (get_all_domain_links_exn_bridge faults
                (LinkExtractor_init website_url (1 # 2)) w fuel) as Hsound.
  destruct (get_all_domain_links_exn faults fuel _ w) as [all_links tr|tr|]; [| | done].
  - destruct Hsound as (st & Hr & -> & ->).
    destruct (reachable_provenance_inv _ st Hr) as [Hdom _ _ _]. simpl in Hdom.
    destruct (filter_links_by_months (elements (all_links st))) as [|l ls] eqn:Hf.
    + intros [= <- <-]. split; [| split].
      * intros other _ Hl. by rewrite lookup_append_file_ne.
      * apply lookup_append_file.
      * right; left. split; [| by rewrite lookup_append_file_ne].
        rewrite app_comm_cons. apply last_snoc.
    + unfold save_links_to_file. rewrite write_all_unlines. cbn [String.append].
      intros Heq. injection Heq as <- <-. split; [| split].
      * intros other Ho Hl.
        by rewrite !lookup_append_file_ne, lookup_insert_ne, lookup_append_file_ne.
      * rewrite lookup_log_after_save by done. do 2 f_equal.
        match goal with
        | |- log_bytes _ 0 (n_records ?L) ++ _ ++ log_bytes _ _ (n_records ?R) = _ =>
            exact (log_bytes_around records L R _)
        end.
      * right; right. exists (sorted (l :: ls)).
        assert (sorted (l :: ls) ≡ₚ l :: ls) as Hp by apply merge_sort_Permutation.
        split; [| split; [| split; [| split; [| split]]]].
        -- intros Hnil. rewrite Hnil in Hp. by apply Permutation_nil_cons in Hp.
        -- by rewrite lookup_append_file_ne, lookup_append_file_ne, lookup_insert_eq.
        -- apply Sorted_merge_sort, _.
        -- rewrite Hp, <- Hf. unfold filter_links_by_months.
           apply NoDup_ListNoDup, List.NoDup_filter, NoDup_ListNoDup, NoDup_elements.
        -- rewrite Hp, <- Hf. apply Forall_forall. intros u Hu.
           apply list_elem_of_In, filter_In in Hu as [Hu Hm]. split; [done |].
           apply Hdom. by apply elem_of_elements, list_elem_of_In.
        -- rewrite (Permutation_length Hp). set_solver.
  - intros [= <- <-]. split; [| split].
    + intros other _ Hl. by rewrite lookup_append_file_ne.
    + apply lookup_append_file.
    + left. split; [| by rewrite lookup_append_file_ne].
      rewrite app_comm_cons. apply last_snoc.
Qed.

End MainFacts.


Lemma save_links_to_file_Permutation_witness :
  save_links_to_file posix_linesep [Site.page_c; Site.page_b] "out.txt"
    (WriteFails 25) [] ∅ =
  save_links_to_file posix_linesep [Site.page_b; Site.page_c] "out.txt"
    (WriteFails 25) [] ∅.
Proof.
  apply save_links_to_file_Permutation. apply Permutation_swap.
Defined.


(** An error after 25 bytes leaves the first line and the start of the
    second one in the file. *)
Example save_links_to_file_partial_line :
  option_map utf8_decode
    (fst (save_links_to_file posix_linesep [Site.page_c; Site.page_b] "out.txt"
            (WriteFails 25) [] ∅)
       !! "out.txt")
  = Some (Some ("https://site.com/b" +:+ String newline "https:")).
Proof. by vm_compute. Qed.

Lemma main_output_witness :
  let out :=
    default (∅, [])
      (@main Absolute.lib Brackets.raising posix_linesep 10 Afri.world NoFault
         Afri.records ∅) in
  (forall other, other <> output_filename -> other <> log_filename ->
     fst out !! other = (∅ : gmap string (list byte)) !! other)
  /\ fst out !! log_filename =
       Some (default [] ((∅ : gmap string (list byte)) !! log_filename)
             ++ log_bytes Afri.records 0 (n_records (snd out)))
  /\ ((last (snd out) = Some MainErrorCritical
       /\ fst out !! output_filename = (∅ : gmap string (list byte)) !! output_filename)
      \/ (last (snd out) = Some MainWarningNone
          /\ fst out !! output_filename
             = (∅ : gmap string (list byte)) !! output_filename)
      \/ exists lines,
           lines <> []
           /\ fst out !! output_filename = Some (file_bytes posix_linesep (unlines lines))
           /\ Sorted String.le lines
           /\ NoDup lines
           /\ Forall (fun u => _contains_target_month u = true
                               /\ @netloc Absolute.lib u = @netloc Absolute.lib website_url)
                lines
           /\ Save (LogInfoSaved (length lines) output_filename) ∈ snd out).
Proof.
  apply (@main_output Absolute.lib Brackets.raising posix_linesep 10 Afri.world
           Afri.records ∅).
  vm_compute. reflexivity.
Defined.

(** [main] on the small site: the dated offer is the one line of
    [liens_filtres.txt], and the log file has one line per record. *)
Example main_on_the_small_site :
  let out :=
    default (∅, [])
      (@main Absolute.lib Brackets.raising posix_linesep 10 Afri.world NoFault
         Afri.records ∅) in
  option_map utf8_decode (fst out !! output_filename)
    = Some (Some (unlines [Afri.offer]))
  /\ option_map length (fst out !! log_filename) = Some 18
  /\ last (snd out) = Some (MainInfoExample 1 Afri.offer)
  /\ fetched (omap (fun e => match e with Crawl e' => Some e' | _ => None end) (snd out))
     = [website_url; Afri.contact; Afri.offer].
Proof. by vm_compute. Qed.

(** Where [os.linesep] is a carriage return and a line feed, each line
    of the file ends in both. *)
Example save_links_to_file_crlf :
  let crlf := String (ascii_of_nat 13) posix_linesep in
  fst (save_links_to_file crlf ["b"; "a"] "out.txt" NoFault [] ∅) !! "out.txt"
    = Some (utf8 (String "a" (crlf +:+ String "b" crlf))).
Proof. by vm_compute. Qed.
